(** * swiftscrape_ai: the bounded crawler, the URL filter, the text cleaner
      and the chunker of [scrape_advanced.py]

    Shallow embedding of the pure core of [scrape_advanced.py] and proofs
    about it.

    Conventions of the embedding.
    - A Python [str] is a [string]: a sequence of code points below 256.
    - A Python [int] is a [Z]; [//] is [Z.div] (both round towards minus
      infinity), [len] returns a [Z].
    - A [set] of strings is a [gset string], a [dict] from strings to strings
      a [gmap string string], a [deque] used as a FIFO a [list] (front = head).
    - [while] loops are fuelled fixpoints returning [None] when the fuel runs
      out; termination is proved separately wherever it holds.
    - The browser, the HTML parser and [urllib.parse] are not part of the
      repository: they are parameters of the crawler (class [Externals]). *)

From Stdlib Require Import ZArith Lia Bool List Ascii.
From stdpp Require Import gmap strings list fin_maps.

Local Open Scope Z_scope.

(* ===================================================================== *)
(** * Python string primitives *)
(* ===================================================================== *)

Module Py.

(** The line feed, ["\n"]. *)
Definition nl : ascii := "010"%char.

(** [len(s)] *)
Definition len (s : string) : Z := Z.of_nat (String.length s).

(** [s[i]] for [0 <= i < len(s)], as an option. *)
Fixpoint get (s : string) (i : nat) : option ascii :=
  match s, i with
  | EmptyString, _ => None
  | String c _, O => Some c
  | String _ s', S i' => get s' i'
  end.

Fixpoint str_take (k : nat) (s : string) : string :=
  match k, s with
  | S k', String c s' => String c (str_take k' s')
  | _, _ => EmptyString
  end.

Fixpoint str_drop (k : nat) (s : string) : string :=
  match k, s with
  | S k', String _ s' => str_drop k' s'
  | _, _ => s
  end.

(** How CPython clips a slice bound [i] against a length [n]: a negative
    bound counts from the end, and everything is clamped into [0..n]. *)
Definition adjust (n i : Z) : Z :=
  if i <? 0 then Z.max (i + n) 0 else Z.min i n.

(** [s[a:b]] *)
Definition slice (s : string) (a b : Z) : string :=
  let n := len s in
  let a' := adjust n a in
  let b' := adjust n b in
  str_take (Z.to_nat (b' - a')) (str_drop (Z.to_nat a') s).

(** Left-to-right scan behind [rfind]: [i] is the index of the head of [s]
    in the whole string, [last] the highest hit seen so far. *)
Fixpoint rfind_from (c : ascii) (s : string) (i lo hi last : Z) : Z :=
  match s with
  | EmptyString => last
  | String a s' =>
      rfind_from c s' (i + 1) lo hi
        (if (lo <=? i) && (i <? hi) && Ascii.eqb a c then i else last)
  end.

(** [s.rfind(c, start, end)] for a one-character [c]: the highest index [i]
    with [s[i] = c] inside the slice [start:end], or [-1]. *)
Definition rfind (c : ascii) (s : string) (start end_ : Z) : Z :=
  let n := len s in
  rfind_from c s 0 (adjust n start) (adjust n end_) (-1).

(** [str.isspace] on code points below 256. *)
Definition is_space (c : ascii) : bool :=
  match N_of_ascii c with
  | 9 | 10 | 11 | 12 | 13 | 28 | 29 | 30 | 31 | 32 | 133 | 160 => true
  | _ => false
  end%N.

Fixpoint lstrip (p : ascii -> bool) (s : string) : string :=
  match s with
  | EmptyString => EmptyString
  | String c s' => if p c then lstrip p s' else s
  end.

(** [s.rstrip(chars)], [p] deciding membership in [chars]. *)
Fixpoint rstrip (p : ascii -> bool) (s : string) : string :=
  match s with
  | EmptyString => EmptyString
  | String c s' =>
      match rstrip p s' with
      | EmptyString => if p c then EmptyString else String c EmptyString
      | r => String c r
      end
  end.

(** [s.strip()] *)
Definition strip (s : string) : string := rstrip is_space (lstrip is_space s).

(** Python truthiness of a string: [if s] *)
Definition truthy (s : string) : bool :=
  match s with EmptyString => false | _ => true end.

(** [str.lower] on one code point below 256: [A-Z] and the accented
    capitals U+00C0..U+00DE (U+00D7, the multiplication sign, has no case). *)
Definition lower_char (c : ascii) : ascii :=
  let n := N_of_ascii c in
  if (((65 <=? n) && (n <=? 90)) ||
      ((192 <=? n) && (n <=? 222) && negb (n =? 215)))%N
  then ascii_of_N (n + 32) else c.

(** [s.lower()] *)
Fixpoint lower (s : string) : string :=
  match s with
  | EmptyString => EmptyString
  | String c s' => String (lower_char c) (lower s')
  end.

(** [s.startswith(p)] *)
Fixpoint startswith (p s : string) : bool :=
  match p, s with
  | EmptyString, _ => true
  | String a p', String b s' => Ascii.eqb a b && startswith p' s'
  | String _ _, EmptyString => false
  end.

(** [sub in s] *)
Fixpoint contains (sub s : string) : bool :=
  startswith sub s ||
  match s with
  | EmptyString => false
  | String _ s' => contains sub s'
  end.

(** [s.endswith(p)] *)
Fixpoint endswith (p s : string) : bool :=
  String.eqb p s ||
  match s with
  | EmptyString => false
  | String _ s' => endswith p s'
  end.

(** [c in s] for a character *)
Fixpoint has_char (c : ascii) (s : string) : bool :=
  match s with
  | EmptyString => false
  | String a s' => Ascii.eqb a c || has_char c s'
  end.

(** [s.split(sep)[0]] for a one-character [sep]: the part of [s] before the
    first [sep], all of [s] when there is none. *)
Fixpoint split_first (sep : ascii) (s : string) : string :=
  match s with
  | EmptyString => EmptyString
  | String c s' => if Ascii.eqb c sep then EmptyString else String c (split_first sep s')
  end.

(** Prepend a character to the first string of a list of pieces. *)
Definition cons_char (c : ascii) (ls : list string) : list string :=
  match ls with
  | [] => [String c EmptyString]
  | l :: ls' => String c l :: ls'
  end.

(** The line boundaries of [str.splitlines] below code point 256:
    LF, VT, FF, CR, FS, GS, RS and NEL. *)
Definition is_linebreak (c : ascii) : bool :=
  match N_of_ascii c with
  | 10 | 11 | 12 | 13 | 28 | 29 | 30 | 133 => true
  | _ => false
  end%N.

Definition cr : ascii := "013"%char.

(** [s.splitlines()]: [s] is read from a line start; [after_cr] says that
    the character before was a CR line end, so that a LF now belongs to the
    same CR LF boundary. No line is produced after the last boundary. *)
Fixpoint splitlines_go (after_cr : bool) (s : string) : list string :=
  match s with
  | EmptyString => []
  | String c s' =>
      if after_cr && Ascii.eqb c nl then splitlines_go false s'
      else if is_linebreak c then EmptyString :: splitlines_go (Ascii.eqb c cr) s'
      else cons_char c (splitlines_go false s')
  end.

Definition splitlines (s : string) : list string := splitlines_go false s.

(** [s.split(sep)] for a one-character [sep]; never the empty list. *)
Fixpoint split (sep : ascii) (s : string) : list string :=
  match s with
  | EmptyString => [EmptyString]
  | String c s' =>
      if Ascii.eqb c sep then EmptyString :: split sep s'
      else cons_char c (split sep s')
  end.

(** [s[-1]], if [s] is not empty. *)
Fixpoint last_char (s : string) : option ascii :=
  match s with
  | EmptyString => None
  | String c EmptyString => Some c
  | String _ s' => last_char s'
  end.

(** [sep.join(l)] *)
Fixpoint join (sep : string) (l : list string) : string :=
  match l with
  | [] => EmptyString
  | [x] => x
  | x :: rest => x +:+ sep +:+ join sep rest
  end.

End Py.

(* ===================================================================== *)
(** * The chunker: [split_dom_content] *)
(* ===================================================================== *)

Module Chunker.
Import Py.

(** The end of the window that starts at [start] (lines 249-254):
    [min(start + max_length, n)], pulled back to the last newline of the
    window when the window stops short of the text's end and that newline
    is beyond [start + max_length // 2]. *)
Definition window_end (dom_content : string) (max_length start : Z) : Z :=
  let n := len dom_content in
  let end_ := Z.min (start + max_length) n in
  if end_ <? n then
    let newline_pos := rfind nl dom_content start end_ in
    if newline_pos >? start + max_length / 2 then newline_pos else end_
  else end_.

(** The next start offset (line 259). *)
Definition next_start (max_length overlap start end_ : Z) : Z :=
  Z.max (end_ - overlap) (start + max_length / 2).

(** The [while start < n] loop (lines 248-261). *)
Fixpoint split_loop (fuel : nat) (dom_content : string)
    (max_length overlap start : Z) (chunks : list string)
    : option (list string) :=
  match fuel with
  | O => None
  | S fuel' =>
      let n := len dom_content in
      if start <? n then
        let end_ := window_end dom_content max_length start in
        let chunks' := chunks ++ [slice dom_content start end_] in
        if end_ <? n then
          split_loop fuel' dom_content max_length overlap
            (next_start max_length overlap start end_) chunks'
        else Some chunks'
      else Some chunks
  end.

(** [split_dom_content(dom_content, max_length, overlap)] *)
Definition split_dom_content (fuel : nat) (dom_content : string)
    (max_length overlap : Z) : option (list string) :=
  if negb (truthy dom_content) then Some []
  else
    let dom_content := strip dom_content in
    if len dom_content <=? max_length then Some [dom_content]
    else split_loop fuel dom_content max_length overlap 0 [].

End Chunker.


(* ===================================================================== *)
(** * The text cleaner: [clean_body_content] *)
(* ===================================================================== *)

Module Cleaner.
Import Py.

(** [re.sub(r'\n{3,}', '\n\n', s)]: every maximal run of three or more
    newlines becomes two newlines. A newline that is followed by two more
    newlines is dropped: of a run of [k >= 3] exactly the last two stay, and
    shorter runs are left alone. *)
Fixpoint sub_newlines (s : string) : string :=
  match s with
  | EmptyString => EmptyString
  | String c s' =>
      match s' with
      | String c1 (String c2 _) =>
          if Ascii.eqb c nl && Ascii.eqb c1 nl && Ascii.eqb c2 nl
          then sub_newlines s'
          else String c (sub_newlines s')
      | _ => String c (sub_newlines s')
      end
  end.

(** Lines 87-88: the stripped lines of the extracted text that are non-empty
    and longer than 3 characters. *)
Definition kept_lines (text : string) : list string :=
  let lines := map strip (splitlines text) in
  filter (fun l => truthy l && (len l >? 3) = true) lines.

(** Line 90: the kept lines joined by newlines. *)
Definition joined_lines (text : string) : string :=
  join (String nl EmptyString) (kept_lines text).

(** Lines 87-93 of [clean_body_content], from the text that
    [soup.get_text(separator="\n")] returned. *)
Definition clean_text (text : string) : string :=
  sub_newlines (joined_lines text).

(** [s] begins with [c]. *)
Definition head_is (c : ascii) (s : string) : bool :=
  match s with
  | String a _ => Ascii.eqb a c
  | EmptyString => false
  end.

(** Two newlines in a row somewhere in [s]: an empty line inside [s]. *)
Fixpoint adjacent_nl (s : string) : bool :=
  match s with
  | EmptyString => false
  | String c s' => (Ascii.eqb c nl && head_is nl s') || adjacent_nl s'
  end.

(** [s] is empty or begins with a character outside [p]. *)
Definition head_kept (p : ascii -> bool) (s : string) : Prop :=
  match s with
  | String c _ => p c = false
  | EmptyString => True
  end.

(** The lines of a text: its pieces between newlines, none for the empty
    text. *)
Definition lines_of (s : string) : list string :=
  match s with
  | EmptyString => []
  | _ => split nl s
  end.

End Cleaner.

(* ===================================================================== *)
(** * Regular expressions, as far as [is_valid_url] uses them *)
(* ===================================================================== *)

Module Regex.
Import Py.

(** The fragment of Python's [re] syntax that occurs in [skip_extensions]. *)
Inductive regex : Type :=
  | Eps                         (* the empty pattern *)
  | Lit (c : ascii)             (* a literal character, escaped or not *)
  | Cat (r1 r2 : regex)         (* r1r2 *)
  | Alt (r1 r2 : regex)         (* r1|r2 *)
  | Opt (r : regex)             (* r? *)
  | Eos.                        (* $ *)

(** Backtracking matcher under [re.IGNORECASE]: all the remainders of [s]
    that matching [r] at the head of [s] can leave. [$] succeeds at the end
    of the string and just before a newline that ends the string. *)
Fixpoint rmatch (r : regex) (s : string) : list string :=
  match r with
  | Eps => [s]
  | Lit c =>
      match s with
      | String a s' =>
          if Ascii.eqb (lower_char a) (lower_char c) then [s'] else []
      | EmptyString => []
      end
  | Cat r1 r2 => flat_map (rmatch r2) (rmatch r1 s)
  | Alt r1 r2 => rmatch r1 s ++ rmatch r2 s
  | Opt r1 => rmatch r1 s ++ [s]
  | Eos =>
      if String.eqb s EmptyString || String.eqb s (String nl EmptyString)
      then [s] else []
  end.

(** [re.search(r, s, re.IGNORECASE)] as a truth value: does [r] match at
    some position of [s]? *)
Fixpoint search (r : regex) (s : string) : bool :=
  match rmatch r s with
  | _ :: _ => true
  | [] =>
      match s with
      | EmptyString => false
      | String _ s' => search r s'
      end
  end.

(** A literal word. *)
Fixpoint word (w : string) : regex :=
  match w with
  | EmptyString => Eps
  | String c w' => Cat (Lit c) (word w')
  end.

(** [r1|r2|...|rn] *)
Fixpoint alts (r : regex) (rs : list regex) : regex :=
  match rs with
  | [] => r
  | r' :: rs' => Alt r (alts r' rs')
  end.

(** The strings that a pattern without [$] matches, in lower case. *)
Fixpoint lang (r : regex) : list string :=
  match r with
  | Eps => [EmptyString]
  | Lit c => [String (lower_char c) EmptyString]
  | Cat r1 r2 => flat_map (fun x => map (String.append x) (lang r2)) (lang r1)
  | Alt r1 r2 => lang r1 ++ lang r2
  | Opt r1 => lang r1 ++ [EmptyString]
  | Eos => []
  end.

Fixpoint eos_free (r : regex) : bool :=
  match r with
  | Eps | Lit _ => true
  | Cat r1 r2 | Alt r1 r2 => eos_free r1 && eos_free r2
  | Opt r1 => eos_free r1
  | Eos => false
  end.

End Regex.

(* ===================================================================== *)
(** * The URL filter: [is_valid_url] *)
(* ===================================================================== *)

Module UrlFilter.
Import Py Regex.

(** [(pdf|jpg|jpeg|png|gif|svg|ico|webp|mp4|mp3|zip|exe|dmg|docx?|xls|pptx?|css|js)] *)
Definition extension_group : regex :=
  alts (word "pdf")
    [word "jpg"; word "jpeg"; word "png"; word "gif"; word "svg"; word "ico";
     word "webp"; word "mp4"; word "mp3"; word "zip"; word "exe"; word "dmg";
     Cat (word "doc") (Opt (Lit "x")); word "xls";
     Cat (word "ppt") (Opt (Lit "x")); word "css"; word "js"].

(** [skip_extensions], line 103:
    [\.(pdf|...|js)($|\?)] *)
Definition skip_extensions : regex :=
  Cat (Lit ".") (Cat extension_group (Alt Eos (Lit "?"))).

(** Line 107. *)
Definition skip_paths : list string :=
  ["login"; "signup"; "register"; "cart"; "checkout"; "admin"].

(** The test of lines 103-105: the URL is refused for its extension. *)
Definition rejected_by_extension (url : string) : bool :=
  search skip_extensions url.

(** [is_valid_url(url)]; [urlparse_path url] stands for
    [urlparse(url).path]. *)
Definition is_valid_url (urlparse_path : string -> string) (url : string) : bool :=
  if negb (truthy url) then false
  else if negb (startswith "http" url) then false
  else if rejected_by_extension url then false
  else
    let parsed_path := urlparse_path url in
    if existsb (fun path => contains path (lower parsed_path)) skip_paths
    then false
    else true.

(** The extensions of the deny list, spelled out. *)
Definition denied_extensions : list string :=
  ["pdf"; "jpg"; "jpeg"; "png"; "gif"; "svg"; "ico"; "webp"; "mp4"; "mp3";
   "zip"; "exe"; "dmg"; "docx"; "doc"; "xls"; "pptx"; "ppt"; "css"; "js"].

End UrlFilter.

(* ===================================================================== *)
(** * The crawl scheduler: [scrape_website_recursive] *)
(* ===================================================================== *)

Module Crawler.
Import Py Cleaner UrlFilter.

(** What the crawler takes from outside the repository: the browser session
    (Selenium), the HTML parser (BeautifulSoup) and [urllib.parse]. Every
    theorem about the crawler holds for all of them. A URL is fetched at
    most once in a run ([fetched_invariant] below), so a function of the URL
    loses no behaviour of the network. *)
Class Externals : Type := {
  (** [get_driver(headless=True)] returned a driver (did not raise) *)
  get_driver_ok : bool;
  (** [scrape_page(url, driver=driver)]: the page source, [""] on any error *)
  scrape_page : string -> string;
  (** [str(BeautifulSoup(html, "html.parser").body)], if there is a body *)
  soup_body : string -> option string;
  (** [str(BeautifulSoup(html, "html.parser"))] *)
  soup_str : string -> string;
  (** lines 81-86: parse, decompose the noise tags, [get_text(separator="\n")] *)
  soup_get_text : string -> string;
  (** [[a["href"] for a in soup.find_all("a", href=True)]] *)
  soup_hrefs : string -> list string;
  (** [urljoin(base, href)] *)
  urljoin : string -> string -> string;
  (** [urlparse(url).netloc] *)
  urlparse_netloc : string -> string;
  (** [urlparse(url).path] *)
  urlparse_path : string -> string
}.

(** The crawler's variables: the frontier [queue], the [visited] set and
    the [results] mapping; [fetched] is the list of URLs handed to
    [scrape_page] so far, in order (the "Scraping: ..." lines of the log). *)
Record state : Type := State {
  queue : list string;
  visited : gset string;
  results : gmap string string;
  fetched : list string
}.

Definition is_slash (c : ascii) : bool := Ascii.eqb c "/".
Definition hash : ascii := "#"%char.

(** Line 205: [full.split("#")[0].rstrip("/")] *)
Definition normalize (full : string) : string :=
  rstrip is_slash (split_first hash full).

(** A normalized URL: no fragment part (no [#] at all) and no trailing
    slash. *)
Definition is_normalized (url : string) : bool :=
  negb (has_char hash url) &&
  match last_char url with
  | Some c => negb (is_slash c)
  | None => true
  end.

Section Loop.
Context `{E : Externals}.

(** [extract_body_content(html_content)]: [str(soup.body or soup)] *)
Definition extract_body_content (html_content : string) : string :=
  match soup_body html_content with
  | Some body => body
  | None => soup_str html_content
  end.

(** [clean_body_content(body_content)] *)
Definition clean_body_content (body_content : string) : string :=
  clean_text (soup_get_text body_content).

Variable same_domain : bool.
Variable max_pages : Z.
Variable domain : string.

(** One turn of the [for a in soup.find_all("a", href=True)] loop,
    lines 204-209. *)
Definition consider_link (current : string) (visited : gset string)
    (queue : list string) (href : string) : list string :=
  let full := urljoin current href in
  let full := normalize full in
  if bool_decide (full ∉ visited) && is_valid_url urlparse_path full then
    if same_domain && bool_decide (urlparse_netloc full = domain)
    then queue ++ [full]
    else queue
  else queue.

(** Lines 203-209. *)
Definition enqueue_links (current : string) (visited : gset string)
    (hrefs : list string) (queue : list string) : list string :=
  fold_left (consider_link current visited) hrefs queue.

(** The loop test, line 175: [queue and len(visited) < max_pages]. *)
Definition loop_test (st : state) : bool :=
  match queue st with
  | [] => false
  | _ :: _ => Z.of_nat (size (visited st)) <? max_pages
  end.

(** The loop body, lines 176-211. *)
Definition loop_body (st : state) : state :=
  match queue st with
  | [] => st
  | current :: queue =>
      if bool_decide (current ∈ visited st) then
        State queue (visited st) (results st) (fetched st)
      else if same_domain && negb (bool_decide (urlparse_netloc current = domain)) then
        State queue (visited st) (results st) (fetched st)
      else
        let html := scrape_page current in
        let fetched := fetched st ++ [current] in
        if negb (truthy html) || (len html <? 500) then
          State queue (visited st ∪ {[current]}) (results st) fetched
        else
          let body := extract_body_content html in
          let cleaned := clean_body_content body in
          let results :=
            if truthy cleaned && (len cleaned >? 200)
            then <[current := cleaned]> (results st)
            else results st in
          let visited := visited st ∪ {[current]} in
          State (enqueue_links current visited (soup_hrefs html) queue)
                visited results fetched
  end.

(** The [while] loop, lines 175-211. *)
Fixpoint crawl_loop (fuel : nat) (st : state) : option state :=
  match fuel with
  | O => None
  | S fuel' =>
      if loop_test st then crawl_loop fuel' (loop_body st) else Some st
  end.

(** The states of a run: the initial one and those at the end of each turn
    of the loop. The loop ends in one of them; so does an interrupt between
    two turns (lines 213-217). *)
Inductive reachable (st0 : state) : state -> Prop :=
  | reach_init : reachable st0 st0
  | reach_turn st :
      reachable st0 st -> loop_test st = true -> reachable st0 (loop_body st).

End Loop.

(** Lines 162-164, [start_url] already stripped. *)
Definition initial_state (start_url : string) : state :=
  State [start_url] ∅ ∅ [].

(** [scrape_website_recursive(start_url, max_pages, same_domain)]: the final
    state of the loop rather than only its [results], [None] when the fuel
    does not suffice and [Some None] when no driver could be created (the
    function then returns the empty mapping at line 172). *)
Definition crawl `{E : Externals} (fuel : nat) (start_url : string)
    (max_pages : Z) (same_domain : bool) : option (option state) :=
  let start_url := rstrip is_slash start_url in
  let domain := urlparse_netloc start_url in
  if get_driver_ok then
    match crawl_loop same_domain max_pages domain fuel (initial_state start_url) with
    | Some st => Some (Some st)
    | None => None
    end
  else Some None.

Definition scrape_website_recursive `{E : Externals} (fuel : nat)
    (start_url : string) (max_pages : Z) (same_domain : bool)
    : option (gmap string string) :=
  match crawl fuel start_url max_pages same_domain with
  | Some (Some st) => Some (results st)
  | Some None => Some ∅
  | None => None
  end.

End Crawler.

(* ===================================================================== *)
(** * A small web site to run the crawler on *)
(* ===================================================================== *)

(** Stand-ins for the browser, the HTML parser and [urllib.parse], used
    only to run the code on the example pages below. They read the plain
    markup of these pages (tags without [>] inside, [href='...'] with single
    quotes, absolute links) the way the real libraries do. *)
Module Site.
Import Py Crawler.

(** [s * n] *)
Fixpoint repeat_str (s : string) (n : nat) : string :=
  match n with
  | O => EmptyString
  | S n' => s +:+ repeat_str s n'
  end.

(** The part of [s] before the first character that satisfies [p], and the
    rest from that character on. *)
Fixpoint break_at (p : ascii -> bool) (s : string) : string * string :=
  match s with
  | EmptyString => (EmptyString, EmptyString)
  | String c s' =>
      if p c then (EmptyString, s)
      else let (a, b) := break_at p s' in (String c a, b)
  end.

Definition is_scheme_char (c : ascii) : bool :=
  let n := N_of_ascii c in
  (((97 <=? n) && (n <=? 122)) || ((65 <=? n) && (n <=? 90)) ||
   ((48 <=? n) && (n <=? 57)) || (n =? 43) || (n =? 45) || (n =? 46))%N.

Definition is_ascii_alpha (c : ascii) : bool :=
  let n := N_of_ascii c in
  (((97 <=? n) && (n <=? 122)) || ((65 <=? n) && (n <=? 90)))%N.

Fixpoint all_chars (p : ascii -> bool) (s : string) : bool :=
  match s with
  | EmptyString => true
  | String c s' => p c && all_chars p s'
  end.

(** The scheme of a URL, in lower case, and what follows its colon. *)
Definition split_scheme (url : string) : string * string :=
  let (pre, rest) := break_at (Ascii.eqb ":") url in
  match pre, rest with
  | String c _, String _ rest' =>
      if is_ascii_alpha c && all_chars is_scheme_char pre
      then (lower pre, rest') else (EmptyString, url)
  | _, _ => (EmptyString, url)
  end.

(** The network location and what follows it. *)
Definition split_netloc (rest : string) : string * string :=
  if startswith "//" rest
  then break_at (fun c => Ascii.eqb c "/" || Ascii.eqb c "?" || Ascii.eqb c "#")
                (str_drop 2 rest)
  else (EmptyString, rest).

(** A path without the [;parameters] of its last segment. *)
Fixpoint strip_params (s : string) : string :=
  match s with
  | EmptyString => EmptyString
  | String c s' =>
      if has_char "/" s' then String c (strip_params s')
      else if Ascii.eqb c ";" then EmptyString
      else String c (strip_params s')
  end.

Definition netloc_of (url : string) : string :=
  fst (split_netloc (snd (split_scheme url))).

Definition path_of (url : string) : string :=
  let rest := snd (split_netloc (snd (split_scheme url))) in
  strip_params (split_first "?" (split_first "#" rest)).

(** [urljoin] when the reference is an absolute http(s) URL (it is returned)
    or empty (the base is returned); the example pages have no other. *)
Definition join_absolute (base href : string) : string :=
  if startswith "http://" href || startswith "https://" href then href
  else base.

(** The text between the tags, a newline for every tag. *)
Fixpoint text_between_tags (in_tag : bool) (s : string) : string :=
  match s with
  | EmptyString => EmptyString
  | String c s' =>
      if in_tag then
        if Ascii.eqb c ">" then String nl (text_between_tags false s')
        else text_between_tags true s'
      else if Ascii.eqb c "<" then text_between_tags true s'
      else String c (text_between_tags false s')
  end.

(** The values of the [href='...'] attributes, in document order. *)
Fixpoint href_values (s : string) : list string :=
  match s with
  | EmptyString => []
  | String _ s' =>
      if startswith "href='" s
      then split_first "'" (str_drop 6 s) :: href_values s'
      else href_values s'
  end.

(** The markup from the first [<body] on. *)
Fixpoint from_body (s : string) : option string :=
  match s with
  | EmptyString => None
  | String _ s' => if startswith "<body" s then Some s else from_body s'
  end.

Definition paragraph : string :=
  repeat_str "The quick brown fox jumps over the lazy dog. " 12.

Definition page (links : string) : string :=
  "<html><body><p>" +:+ paragraph +:+ "</p>" +:+ links +:+ "</body></html>".

Definition home_page : string :=
  page ("<a href='http://x.com/b'>first</a>" +:+
        "<a href='http://x.com/b#more'>again</a>" +:+
        "<a href='http://y.org/c'>elsewhere</a>").

Definition page_b : string :=
  page "<a href='http://x.com/'>home</a>".

Definition docs_page : string :=
  page "<a href='http://x.com/docs'>top</a>".

(** What the browser returns: three pages, and nothing anywhere else. *)
Definition browse (url : string) : string :=
  if String.eqb url "http://x.com" then home_page
  else if String.eqb url "http://x.com/b" then page_b
  else if String.eqb url "http://x.com/docs#intro" then docs_page
  else if String.eqb url "http://x.com/docs" then docs_page
  else EmptyString.

#[export] Instance site : Externals := {|
  get_driver_ok := true;
  scrape_page := browse;
  soup_body := from_body;
  soup_str := fun html => html;
  soup_get_text := text_between_tags false;
  soup_hrefs := href_values;
  urljoin := join_absolute;
  urlparse_netloc := netloc_of;
  urlparse_path := path_of
|}.

End Site.

(* ===================================================================== *)
(** * Statements of the specification, as predicates *)
(* ===================================================================== *)

Module Stated.
Import Py Chunker Cleaner Regex UrlFilter Crawler Site.

(** [p] is the nearest newline before [hi], not before [lo]. *)
Definition last_newline_at (text : string) (lo hi p : Z) : Prop :=
  lo <= p < hi /\ get text (Z.to_nat p) = Some nl /\
  forall i, p < i < hi -> get text (Z.to_nat i) <> Some nl.

(** The newline rule with the midpoint included: a window that stops short
    of the text's end is cut at its last newline exactly when that newline
    is at or after [start + max_length // 2]. *)
Definition cut_at_or_after_midpoint (text : string) (max_length start : Z) : Prop :=
  forall p,
    0 <= start ->
    Z.min (start + max_length) (len text) < len text ->
    last_newline_at text start (Z.min (start + max_length) (len text)) p ->
    (window_end text max_length start = p <-> start + max_length / 2 <= p).

(** The chunk bound for all parameters whatsoever. *)
Definition chunks_bounded_for_all_parameters : Prop :=
  forall fuel dom_content max_length overlap chunks,
    split_dom_content fuel dom_content max_length overlap = Some chunks ->
    Forall (fun c => len c <= max_length) chunks.

(** The frontier without repetition: no URL twice in the queue, and no
    queued URL in the visited set. *)
Definition frontier_distinct (st : state) : Prop :=
  NoDup (queue st) /\ forall u, u ∈ queue st -> u ∉ visited st.

(** The crawl of the example site from its home page, same-domain scoping
    on, after one and after two turns of the loop. *)
Definition after_home : state :=
  loop_body true "x.com" (initial_state "http://x.com").
Definition after_page_b : state := loop_body true "x.com" after_home.

(** What may follow the extension: the end of the URL (or a newline that
    ends it, as Python's [$] has it), or a question mark. *)
Definition ends_or_query (post : string) : Prop :=
  post = EmptyString \/ post = String nl EmptyString \/ head_is "?" post = true.

(** The path of the URL, in lower case, ends in a dot and a denied
    extension. *)
Definition path_has_denied_extension (url : string) : bool :=
  existsb (fun e => endswith ("." +:+ e) (lower (path_of url)))
          denied_extensions.

(** The extension test as a test of the path alone. *)
Definition extension_test_reads_path (url : string) : Prop :=
  rejected_by_extension url = true <-> path_has_denied_extension url = true.

(** The text [ab\ncdefgh]: its newline is at index 2. *)
Definition two_lines : string := "ab" +:+ String nl "cdefgh".

End Stated.

(* ===================================================================== *)
(** * The windows behind the chunks *)
(* ===================================================================== *)

Module Windows.
Import Py Chunker.

(** The loop of [split_dom_content] once more, keeping for every chunk the
    bounds [(start, end)] of the slice [dom_content[start:end]] it is (line
    256) instead of the slice itself. *)
Fixpoint split_windows (fuel : nat) (dom_content : string)
    (max_length overlap start : Z) : option (list (Z * Z)) :=
  match fuel with
  | O => None
  | S fuel' =>
      let n := len dom_content in
      if start <? n then
        let end_ := window_end dom_content max_length start in
        if end_ <? n then
          match split_windows fuel' dom_content max_length overlap
                  (next_start max_length overlap start end_) with
          | Some ws => Some ((start, end_) :: ws)
          | None => None
          end
        else Some [(start, end_)]
      else Some []
  end.

(** The windows of [split_dom_content]: none for the empty text, the whole
    stripped text when it is short enough (line 242), those of the loop
    otherwise. *)
Definition chunk_windows (fuel : nat) (dom_content : string)
    (max_length overlap : Z) : option (list (Z * Z)) :=
  if negb (truthy dom_content) then Some []
  else
    let dom_content := strip dom_content in
    if len dom_content <=? max_length then Some [(0, len dom_content)]
    else split_windows fuel dom_content max_length overlap 0.

(** The chunk of a window. *)
Definition chunk_of (dom_content : string) (w : Z * Z) : string :=
  slice dom_content (fst w) (snd w).

End Windows.

(* ===================================================================== *)
(** * What a fetch stores *)
(* ===================================================================== *)

Module Pages.
Import Py Cleaner UrlFilter Crawler.

Section Pages.
Context `{E : Externals}.

(** Lines 186-198: what the turn that fetches [url] puts into [results]
    under the key [url], if anything: the cleaned text of the page, when the
    page source has 500 characters or more and the cleaned text more than
    200. *)
Definition stored_text (url : string) : option string :=
  let html := scrape_page url in
  if negb (truthy html) || (len html <? 500) then None
  else
    let cleaned := clean_body_content (extract_body_content html) in
    if truthy cleaned && (len cleaned >? 200) then Some cleaned else None.

(** Lines 187 and 202-209: the queue after the turn that fetches [current];
    links are read only from a page source of 500 characters or more. *)
Definition queue_after_fetch (same_domain : bool) (domain current : string)
    (visited : gset string) (queue : list string) : list string :=
  let html := scrape_page current in
  if negb (truthy html) || (len html <? 500) then queue
  else enqueue_links same_domain domain current visited (soup_hrefs html) queue.

(** Lines 207-208: the test that a resolved and normalized link has to
    pass to be appended to the queue. *)
Definition link_accepted (same_domain : bool) (domain : string)
    (visited : gset string) (full : string) : bool :=
  bool_decide (full ∉ visited) && is_valid_url urlparse_path full &&
  (same_domain && bool_decide (urlparse_netloc full = domain)).

End Pages.

End Pages.

(* ===================================================================== *)
(** * Shapes of lines *)
(* ===================================================================== *)

Module Shape.
Import Py Cleaner.

(** Every character of [s] satisfies [p]. *)
Fixpoint every_char (p : ascii -> bool) (s : string) : bool :=
  match s with
  | EmptyString => true
  | String c s' => p c && every_char p s'
  end.

(** [s] holds none of the line boundaries of [splitlines]. *)
Definition no_linebreak (s : string) : bool :=
  every_char (fun c => negb (is_linebreak c)) s.

(** [s] is empty or ends with a character outside [p]. *)
Definition last_kept (p : ascii -> bool) (s : string) : Prop :=
  forall c, last_char s = Some c -> p c = false.

(** The characters of the lines, one more for each line (its boundary). *)
Fixpoint weight (ls : list string) : Z :=
  match ls with
  | [] => 0
  | l :: ls' => len l + 1 + weight ls'
  end.

End Shape.

(* ===================================================================== *)
(** * The request of [parse_with_gemini] ([parse_advanced.py]) *)
(* ===================================================================== *)

Module Prompt.
Import Py.

(** ["\n\n"] *)
Definition nl2 : string := String nl (String nl EmptyString).

(** The separator of line 36. *)
Definition section_break : string := nl2 +:+ "---SECTION BREAK---" +:+ nl2.

(** The note of line 40. *)
Definition truncation_note : string :=
  nl2 +:+ "[Content truncated for performance]".

(** Lines 36-40: the chunks joined, cut after 100000 characters. *)
Definition website_content (dom_chunks : list string) : string :=
  let combined := join section_break dom_chunks in
  if len combined >? 100000
  then slice combined 0 100000 +:+ truncation_note
  else combined.

(** The three fixed parts of the f-string of lines 43-54. *)
Definition prompt_head : string :=
  "You are a helpful and expert analyst of website content." +:+ nl2 +:+
  "User Question: ".

Definition prompt_middle : string :=
  nl2 +:+ "Website Content:" +:+ String nl EmptyString.

Definition prompt_tail : string :=
  nl2 +:+
  "Instructions:" +:+ String nl
  "- Answer the question clearly and concisely." +:+ String nl
  "- **CRITICAL: If the question asks for a list, product details, or structured data, provide the complete information in a clear, formatted Markdown table.**" +:+ String nl
  "- Do not summarize data unless asked to." +:+ String nl
  "- If information isn't in the content, state that concisely." +:+ String nl
  "- Be specific and accurate." +:+ nl2 +:+
  "Answer:".

(** Lines 43-54. *)
Definition build_prompt (parse_description combined : string) : string :=
  prompt_head +:+ parse_description +:+ prompt_middle +:+ combined +:+
  prompt_tail.

(** Lines 28-54: the prompt that [parse_with_gemini] hands to the model,
    [None] when it returns before (no chunks, a blank question, or no API
    key); [api_key] is what [os.getenv] returned. *)
Definition request_prompt (api_key : option string)
    (dom_chunks : list string) (parse_description : string) : option string :=
  if match dom_chunks with [] => true | _ :: _ => false end
     || negb (truthy (strip parse_description))
  then None
  else if negb match api_key with Some key => truthy key | None => false end
  then None
  else Some (build_prompt parse_description (website_content dom_chunks)).

End Prompt.

(* ===================================================================== *)
(** * Facts about the string primitives *)
(* ===================================================================== *)

Import Py Chunker Cleaner Regex UrlFilter Crawler Site Stated Windows Pages Shape Prompt.

Lemma length_str_take k s :
  String.length (str_take k s) = Nat.min k (String.length s).
Proof.
  revert s; induction k as [|k IH]; intros [|c s]; simpl; auto.
Qed.

Lemma length_str_drop k s :
  String.length (str_drop k s) = (String.length s - k)%nat.
Proof.
  revert s; induction k as [|k IH]; intros [|c s]; simpl; auto.
Qed.

Lemma len_nonneg s : 0 <= len s.
Proof. unfold len; lia. Qed.

Lemma adjust_range n i : 0 <= n -> 0 <= adjust n i <= n.
Proof. unfold adjust; intros; destruct (Z.ltb_spec i 0); lia. Qed.

Lemma adjust_inside n i : 0 <= i <= n -> adjust n i = i.
Proof. unfold adjust; intros; destruct (Z.ltb_spec i 0); lia. Qed.

Lemma len_slice s a b :
  len (slice s a b) = Z.max 0 (adjust (len s) b - adjust (len s) a).
Proof.
  unfold slice.
  pose proof (adjust_range (len s) a (len_nonneg s)).
  pose proof (adjust_range (len s) b (len_nonneg s)).
  unfold len in *. rewrite length_str_take, length_str_drop. lia.
Qed.

Lemma len_slice_inside s a b :
  0 <= a <= b -> b <= len s -> len (slice s a b) = b - a.
Proof.
  intros. rewrite len_slice, !adjust_inside by lia. lia.
Qed.

(** [rfind_from] returns the last hit inside the bounds, or [last]. *)
Lemma rfind_from_spec c s : forall i lo hi last,
  let r := rfind_from c s i lo hi last in
  (r = last /\
     forall k : nat, lo <= i + Z.of_nat k < hi -> get s k <> Some c) \/
  (exists k : nat, r = i + Z.of_nat k /\ lo <= r < hi /\ get s k = Some c /\
     forall k' : nat, (k < k')%nat -> lo <= i + Z.of_nat k' < hi ->
       get s k' <> Some c).
Proof.
  induction s as [|a s IH]; intros i lo hi last; simpl.
  - left; split; [reflexivity | intros [|k] _; discriminate].
  - set (hit := (lo <=? i) && (i <? hi) && Ascii.eqb a c).
    specialize (IH (i + 1) lo hi (if hit then i else last)).
    simpl in IH. destruct IH as [[Hr Hno] | (k & Hr & Hb & Hk & Hno)].
    + destruct hit eqn:Hhit.
      * right. exists 0%nat. rewrite Hr.
        unfold hit in Hhit. apply andb_prop in Hhit as [Hhit Hac].
        apply andb_prop in Hhit as [Hlo Hhi].
        apply Ascii.eqb_eq in Hac. subst a.
        repeat split; try lia.
        intros [|k'] Hlt Hin; [lia|]. simpl. apply Hno. lia.
      * left. split; [exact Hr|].
        intros [|k] Hin; simpl.
        -- intros Heq. injection Heq as ->.
           unfold hit in Hhit. rewrite Ascii.eqb_refl, andb_true_r in Hhit.
           apply andb_false_iff in Hhit as [Hf | Hf];
             [apply Z.leb_gt in Hf | apply Z.ltb_ge in Hf]; lia.
        -- apply Hno. lia.
    + right. exists (S k). simpl. repeat split; try lia; try assumption.
      intros [|k'] Hlt Hin; [lia|]. simpl. apply Hno; lia.
Qed.

(** What [rfind] returns: [-1] when the character does not occur between
    the clipped bounds, its last position there otherwise. *)
Lemma rfind_spec c s start end_ :
  let lo := adjust (len s) start in
  let hi := adjust (len s) end_ in
  let r := rfind c s start end_ in
  (r = -1 /\ forall i, lo <= i < hi -> get s (Z.to_nat i) <> Some c) \/
  (lo <= r < hi /\ get s (Z.to_nat r) = Some c /\
     forall i, r < i < hi -> get s (Z.to_nat i) <> Some c).
Proof.
  intros lo hi r.
  pose proof (adjust_range (len s) start (len_nonneg s)) as Hlo.
  fold lo in Hlo.
  destruct (rfind_from_spec c s 0 lo hi (-1)) as [[Hr Hno] | (k & Hr & Hb & Hk & Hno)];
    fold lo hi in Hr; change (rfind_from c s 0 lo hi (-1)) with r in *.
  - left. split; [exact Hr|]. intros i Hi. apply Hno. lia.
  - right. assert (Hrk : Z.to_nat r = k) by lia.
    rewrite Hrk. repeat split; try lia; try assumption.
    intros i Hi. apply Hno; lia.
Qed.

Lemma rfind_range c s start end_ :
  rfind c s start end_ = -1 \/
  adjust (len s) start <= rfind c s start end_ < adjust (len s) end_.
Proof.
  destruct (rfind_spec c s start end_) as [[H _] | [H _]]; auto.
Qed.

(* ===================================================================== *)
(** * The chunker *)
(* ===================================================================== *)

Section ChunkerFacts.

Variable dom_content : string.
Variable max_length overlap : Z.

Let n := len dom_content.

(** The window never ends before its start nor after
    [min(start + max_length, n)]. *)
Lemma window_end_bounds start :
  0 <= max_length -> 0 <= start <= n ->
  start <= window_end dom_content max_length start
        <= Z.min (start + max_length) n.
Proof.
  intros Hm Hs. unfold window_end. fold n.
  destruct (Z.ltb_spec (Z.min (start + max_length) n) n) as [Hlt|Hge]; [|lia].
  destruct (Z.gtb_spec (rfind nl dom_content start (Z.min (start + max_length) n))
                     (start + max_length / 2)) as [Hgt|Hle]; [|lia].
  pose proof (Z.div_pos max_length 2 Hm ltac:(lia)).
  destruct (rfind_range nl dom_content start (Z.min (start + max_length) n))
    as [Hr | Hr]; [lia|].
  fold n in Hr. rewrite (adjust_inside n (Z.min _ _)) in Hr by lia. lia.
Qed.

Lemma next_start_ge start end_ :
  start + max_length / 2 <= next_start max_length overlap start end_.
Proof. unfold next_start; lia. Qed.

(** Every chunk the loop appends is at most [max_length] long. *)
Lemma split_loop_bound fuel :
  0 <= max_length ->
  forall start chunks r,
    0 <= start ->
    Forall (fun c => len c <= max_length) chunks ->
    split_loop fuel dom_content max_length overlap start chunks = Some r ->
    Forall (fun c => len c <= max_length) r.
Proof.
  intros Hm. induction fuel as [|fuel IH]; intros start chunks r Hs Hall;
    simpl; [discriminate|]. fold n.
  destruct (Z.ltb_spec start n) as [Hlt|Hge];
    [|intros [= <-]; exact Hall].
  pose proof (window_end_bounds start Hm ltac:(lia)) as Hw.
  assert (Hall' : Forall (fun c => len c <= max_length)
            (chunks ++ [slice dom_content start
                          (window_end dom_content max_length start)])).
  { apply Forall_app. split; [exact Hall|].
    constructor; [|constructor].
    rewrite len_slice_inside; fold n; lia. }
  destruct (Z.ltb_spec (window_end dom_content max_length start) n).
  - apply IH; [|exact Hall'].
    pose proof (next_start_ge start (window_end dom_content max_length start)).
    pose proof (Z.div_pos max_length 2 Hm ltac:(lia)). lia.
  - intros [= <-]; exact Hall'.
Qed.

(** With [max_length >= 2] the start offset grows in every turn ... *)
Lemma next_start_advances start end_ :
  2 <= max_length -> start < next_start max_length overlap start end_.
Proof.
  intros Hm. pose proof (next_start_ge start end_).
  assert (1 <= max_length / 2) by (apply Z.div_le_lower_bound; lia). lia.
Qed.

(** ... so the loop ends within [n - start + 1] turns. *)
Lemma split_loop_finishes :
  2 <= max_length ->
  forall (k : nat) start chunks,
    n - start <= Z.of_nat k ->
    exists r, split_loop (S k) dom_content max_length overlap start chunks = Some r.
Proof.
  intros Hm. induction k as [|k IH]; intros start chunks Hk;
    cbn [split_loop]; fold n.
  - destruct (Z.ltb_spec start n); [lia | eauto].
  - destruct (Z.ltb_spec start n); [|eauto].
    destruct (Z.ltb_spec (window_end dom_content max_length start) n); [|eauto].
    apply IH.
    pose proof (next_start_advances start
                  (window_end dom_content max_length start) Hm). lia.
Qed.

End ChunkerFacts.

(** For [max_length >= 2] (and any overlap) [split_dom_content] returns. *)
Lemma split_dom_content_returns dom_content max_length overlap :
  2 <= max_length ->
  exists fuel chunks,
    split_dom_content fuel dom_content max_length overlap = Some chunks.
Proof.
  intros Hm. unfold split_dom_content.
  destruct (negb (truthy dom_content)); [exists O; eauto|].
  destruct (len (strip dom_content) <=? max_length); [exists O; eauto|].
  exists (S (Z.to_nat (len (strip dom_content)))).
  apply split_loop_finishes; [exact Hm | lia].
Qed.

(** With [max_length = 1] and [overlap = 1] the start offset of the text
    [ab] stays at 0: the loop appends chunk after chunk and never ends. *)
Lemma split_loop_ab_stuck fuel chunks :
  split_loop fuel "ab" 1 1 0 chunks = None.
Proof.
  revert chunks; induction fuel as [|fuel IH]; intros chunks; [reflexivity|].
  cbn [split_loop].
  change (0 <? len "ab") with true.
  change (window_end "ab" 1 0) with 1.
  change (1 <? len "ab") with true.
  change (next_start 1 1 0 1) with 0.
  cbv iota. apply IH.
Qed.

(** C2 (the code departs from the claim): on the text [ab] with
    [max_length = 1] and [overlap = 1], parameters the claim allows,
    [split_dom_content] returns for no amount of fuel; the start offset is 0
    again after every turn of the loop. *)
Theorem split_dom_content_ab_never_returns :
  next_start 1 1 0 (window_end "ab" 1 0) = 0 /\
  forall fuel, split_dom_content fuel "ab" 1 1 = None.
Proof.
  split; [reflexivity|].
  intros fuel. unfold split_dom_content.
  change (negb (truthy "ab")) with false.
  change (strip "ab") with "ab".
  change (len "ab" <=? 1) with false.
  cbv iota. apply split_loop_ab_stuck.
Qed.

(** C8, counterexample: with [max_length = -1] and [overlap = -100] the
    text [abc] is split into the single chunk [ab], which is longer
    than [max_length]. *)
Lemma chunks_bounded_fails_for_negative_max_length :
  split_dom_content 2 "abc" (-1) (-100) = Some ["ab"] /\
  ~ len "ab" <= -1 /\
  ~ chunks_bounded_for_all_parameters.
Proof.
  split; [reflexivity|]. split; [vm_compute; congruence|].
  intros H. specialize (H 2%nat "abc" (-1) (-100) ["ab"] eq_refl).
  inversion H as [|? ? Hlen _]. vm_compute in Hlen. congruence.
Qed.

(** C8 (amended): for every text, every [max_length >= 0] and every
    overlap, each chunk that [split_dom_content] returns has length at most
    [max_length]; the newline back-off only shortens a chunk. *)
Theorem chunk_length_bound fuel dom_content max_length overlap chunks :
  0 <= max_length ->
  split_dom_content fuel dom_content max_length overlap = Some chunks ->
  Forall (fun c => len c <= max_length) chunks.
Proof.
  intros Hm. unfold split_dom_content.
  destruct (negb (truthy dom_content)); [intros [= <-]; constructor|].
  destruct (Z.leb_spec (len (strip dom_content)) max_length) as [Hle|Hgt].
  - intros [= <-]. constructor; [exact Hle | constructor].
  - apply split_loop_bound; [exact Hm | lia | constructor].
Qed.

Lemma chunk_length_bound_witness :
  Forall (fun c => len c <= 10)
    ["hello worl"; "orld, this"; "his is tex"; "text"].
Proof.
  apply (chunk_length_bound 5 "  hello world, this is text  " 10 3).
  - lia.
  - vm_compute. reflexivity.
Defined.

(** When the window stops short of the text's end and has a last newline,
    [rfind] finds exactly that newline. *)
Lemma rfind_last_newline text start end_ p :
  0 <= start -> end_ <= len text ->
  last_newline_at text start end_ p ->
  rfind nl text start end_ = p.
Proof.
  intros Hs He (Hp & Hnl & Hlast).
  pose proof (rfind_spec nl text start end_) as Hspec. simpl in Hspec.
  rewrite !adjust_inside in Hspec by lia.
  destruct Hspec as [[_ Hno] | (Hr & Hrnl & Hrlast)].
  - exfalso. exact (Hno p Hp Hnl).
  - destruct (Z.lt_trichotomy (rfind nl text start end_) p) as [Hlt | [Heq | Hgt]].
    + exfalso. apply (Hrlast p); [lia | exact Hnl].
    + exact Heq.
    + exfalso. apply (Hlast (rfind nl text start end_)); [lia | exact Hrnl].
Qed.

(** A window without a newline keeps its end. *)
Lemma window_end_no_newline text max_length start :
  0 <= start <= len text -> 0 <= max_length ->
  (forall i, start <= i < Z.min (start + max_length) (len text) ->
     get text (Z.to_nat i) <> Some nl) ->
  window_end text max_length start = Z.min (start + max_length) (len text).
Proof.
  intros Hs Hm Hno. unfold window_end.
  destruct (Z.ltb_spec (Z.min (start + max_length) (len text)) (len text)); [|reflexivity].
  pose proof (rfind_spec nl text start (Z.min (start + max_length) (len text))) as Hspec.
  simpl in Hspec. rewrite !adjust_inside in Hspec by lia.
  pose proof (Z.div_pos max_length 2 Hm ltac:(lia)).
  destruct Hspec as [[Hr _] | (Hr & Hrnl & _)].
  - rewrite Hr. destruct (Z.gtb_spec (-1) (start + max_length / 2)); [lia | reflexivity].
  - exfalso. exact (Hno _ Hr Hrnl).
Qed.

(** C7, counterexample: in [ab\ncdefgh] with [max_length = 4] the first
    window is [0, 4) and its only newline is at index 2, which is the
    midpoint [0 + 4 // 2]; the window still ends at 4. *)
Lemma newline_at_midpoint_not_used :
  last_newline_at two_lines 0 4 2 /\
  0 + 4 / 2 <= 2 /\
  window_end two_lines 4 0 = 4 /\
  ~ cut_at_or_after_midpoint two_lines 4 0.
Proof.
  assert (Hlast : last_newline_at two_lines 0 4 2).
  { split; [lia|]. split; [reflexivity|].
    intros i Hi. assert (i = 3) as -> by lia. vm_compute. congruence. }
  split; [exact Hlast|]. split; [vm_compute; congruence|].
  split; [reflexivity|].
  intros H. specialize (H 2 ltac:(lia)).
  change (Z.min (0 + 4) (len two_lines)) with 4 in H.
  change (len two_lines) with 9 in H.
  change (window_end two_lines 4 0) with 4 in H.
  specialize (H ltac:(lia) Hlast).
  assert (Hmid : 0 + 4 / 2 <= 2) by (vm_compute; congruence).
  apply H in Hmid. lia.
Qed.

(** C7 (amended): whenever the window's end does not coincide with the end
    of the text, the boundary is pulled back to the nearest preceding newline
    of the window if and only if that newline lies strictly after the
    midpoint [start + max_length // 2]; otherwise the boundary stays at
    [min(start + max_length, n)]. *)
Theorem newline_backoff_rule text max_length start p :
  0 <= start ->
  Z.min (start + max_length) (len text) < len text ->
  last_newline_at text start (Z.min (start + max_length) (len text)) p ->
  (window_end text max_length start = p <-> start + max_length / 2 < p) /\
  (~ start + max_length / 2 < p ->
   window_end text max_length start = Z.min (start + max_length) (len text)).
Proof.
  intros Hs Hshort Hlast.
  pose proof (rfind_last_newline text start
                (Z.min (start + max_length) (len text)) p Hs ltac:(lia) Hlast) as Hr.
  destruct Hlast as (Hp & _ & _).
  unfold window_end.
  destruct (Z.ltb_spec (Z.min (start + max_length) (len text)) (len text)); [|lia].
  rewrite Hr.
  destruct (Z.gtb_spec p (start + max_length / 2)); split; intros; lia.
Qed.

Lemma newline_backoff_rule_witness :
  (window_end two_lines 3 0 = 2 <-> 0 + 3 / 2 < 2) /\
  (~ 0 + 3 / 2 < 2 -> window_end two_lines 3 0 = Z.min (0 + 3) (len two_lines)).
Proof.
  apply (newline_backoff_rule two_lines 3 0 2).
  - lia.
  - vm_compute. reflexivity.
  - split; [vm_compute; split; congruence|].
    split; [reflexivity|].
    intros i Hi. change (Z.min (0 + 3) (len two_lines)) with 3 in Hi. lia.
Defined.

(* ===================================================================== *)
(** * URL normalization *)
(* ===================================================================== *)

Lemma split_first_no_sep sep s : has_char sep (split_first sep s) = false.
Proof.
  induction s as [|c s IH]; simpl; [reflexivity|].
  destruct (Ascii.eqb c sep) eqn:Hc; simpl; [reflexivity|].
  rewrite Hc. exact IH.
Qed.

Lemma split_first_id sep s : has_char sep s = false -> split_first sep s = s.
Proof.
  induction s as [|c s IH]; simpl; [reflexivity|].
  intros H. apply orb_false_elim in H as [Hc Hs].
  rewrite Hc, IH by exact Hs. reflexivity.
Qed.

Lemma rstrip_cons p c s :
  rstrip p (String c s) =
  match rstrip p s with
  | EmptyString => if p c then EmptyString else String c EmptyString
  | r => String c r
  end.
Proof. reflexivity. Qed.

Lemma rstrip_idempotent p s : rstrip p (rstrip p s) = rstrip p s.
Proof.
  induction s as [|c s IH]; [reflexivity|].
  rewrite rstrip_cons. destruct (rstrip p s) as [|d r] eqn:Hr.
  - destruct (p c) eqn:Hc; [reflexivity|].
    rewrite rstrip_cons. simpl. rewrite Hc. reflexivity.
  - rewrite rstrip_cons, IH. reflexivity.
Qed.

Lemma rstrip_keeps_absent p c s :
  has_char c s = false -> has_char c (rstrip p s) = false.
Proof.
  induction s as [|a s IH]; [reflexivity|].
  intros H. simpl in H. apply orb_false_elim in H as [Ha Hs].
  rewrite rstrip_cons. specialize (IH Hs).
  destruct (rstrip p s) as [|d r].
  - destruct (p a); simpl; [reflexivity | rewrite Ha; reflexivity].
  - change (has_char c (String a (String d r)))
      with (Ascii.eqb a c || has_char c (String d r)).
    rewrite Ha, IH. reflexivity.
Qed.

(** A right-stripped string does not end in a stripped character. *)
Lemma rstrip_last p s c :
  last_char (rstrip p s) = Some c -> p c = false.
Proof.
  induction s as [|a s IH]; [discriminate|].
  rewrite rstrip_cons. destruct (rstrip p s) as [|d r].
  - destruct (p a) eqn:Ha; [discriminate|]. simpl. congruence.
  - intros H. apply IH. exact H.
Qed.

Lemma normalize_is_normalized u : is_normalized (normalize u) = true.
Proof.
  unfold is_normalized, normalize.
  rewrite rstrip_keeps_absent by apply split_first_no_sep. simpl.
  destruct (last_char _) as [c|] eqn:Hc; [|reflexivity].
  apply rstrip_last in Hc. rewrite Hc. reflexivity.
Qed.

(** C9: the normalization of discovered links, [full.split("#")[0]] followed
    by [rstrip("/")], is idempotent. *)
Theorem normalize_idempotent u : normalize (normalize u) = normalize u.
Proof.
  unfold normalize.
  rewrite (split_first_id hash (rstrip is_slash (split_first hash u))).
  - apply rstrip_idempotent.
  - apply rstrip_keeps_absent, split_first_no_sep.
Qed.

(* ===================================================================== *)
(** * The crawl scheduler *)
(* ===================================================================== *)

Section CrawlerFacts.
Context `{E : Externals}.
Variable same_domain : bool.
Variable max_pages : Z.
Variable domain : string.

Local Abbreviation body := (loop_body same_domain domain).
Local Abbreviation test := (loop_test max_pages).
Local Abbreviation run := (crawl_loop same_domain max_pages domain).
Local Abbreviation reaches := (reachable same_domain max_pages domain).

(** The link loop only appends, and only normalized links that are not in
    the visited set. *)
Lemma enqueue_links_elem current (vis : gset string) hrefs : forall q u,
  u ∈ enqueue_links same_domain domain current vis hrefs q ->
  (u ∈ q) \/
  ((u ∉ vis) /\
   exists href, (href ∈ hrefs) /\ u = normalize (urljoin current href)).
Proof.
  unfold enqueue_links.
  induction hrefs as [|href hrefs IH]; intros q u; simpl; [auto|].
  intros Hu. apply IH in Hu as [Hu | (Hv & h & Hh & ->)].
  - unfold consider_link in Hu.
    destruct (bool_decide (normalize (urljoin current href) ∉ vis)) eqn:Hvis;
      simpl in Hu; [|auto].
    destruct (is_valid_url _ _); [|auto].
    destruct (_ && _); [|auto].
    apply elem_of_app in Hu as [Hu | Hu]; [auto|].
    apply list_elem_of_singleton in Hu as ->.
    apply bool_decide_eq_true in Hvis.
    right. split; [exact Hvis|]. exists href. split; [left | reflexivity].
  - right. split; [exact Hv|]. exists h. split; [right; exact Hh | reflexivity].
Qed.

(** A turn of the loop either drops the head of the queue and changes
    nothing else, or fetches the head, which was not visited, and marks it
    visited. *)
Lemma loop_body_cases st current q :
  queue st = current :: q ->
  body st = State q (visited st) (results st) (fetched st) \/
  ((current ∉ visited st) /\
   visited (body st) = visited st ∪ {[current]} /\
   fetched (body st) = fetched st ++ [current] /\
   (results (body st) = results st \/
    exists cleaned, results (body st) = <[current := cleaned]> (results st)) /\
   forall u, u ∈ queue (body st) ->
     (u ∈ q) \/
     ((u ∉ visited (body st)) /\
      exists href, u = normalize (urljoin current href))).
Proof.
  intros Hq. unfold loop_body. rewrite Hq.
  case_bool_decide as Hvis; [left; reflexivity|].
  destruct (same_domain && negb _); [left; reflexivity|].
  right. split; [exact Hvis|].
  destruct (negb (truthy (scrape_page current)) || _); simpl.
  - repeat split; auto.
  - repeat split.
    + destruct (truthy _ && _); eauto.
    + intros u Hu. apply enqueue_links_elem in Hu as [Hu | (Hv & h & _ & ->)];
        [left; exact Hu | right; eauto].
Qed.

Lemma size_add_new (vis : gset string) (u : string) :
  u ∉ vis -> size (vis ∪ {[u]}) = S (size vis).
Proof.
  intros Hu. rewrite size_union by set_solver.
  rewrite size_singleton. lia.
Qed.

(** The budget is kept by every turn that the loop test admits. *)
Lemma budget_turn st :
  test st = true ->
  Z.of_nat (size (visited (body st))) <= max_pages.
Proof.
  unfold loop_test. destruct (queue st) as [|current q] eqn:Hq; [discriminate|].
  intros Ht. apply Z.ltb_lt in Ht.
  destruct (loop_body_cases st current q Hq) as [-> | (Hnew & -> & _)];
    simpl; [lia|].
  rewrite size_add_new by exact Hnew. lia.
Qed.

(** The budget holds in every state of a run, hence also when an interrupt
    ends the loop early. *)
Lemma reachable_budget start st :
  0 <= max_pages ->
  reaches (initial_state start) st ->
  Z.of_nat (size (visited st)) <= max_pages.
Proof.
  intros Hm Hr. induction Hr as [|st Hr IH Ht].
  - unfold initial_state. cbn [visited]. rewrite size_empty. lia.
  - apply budget_turn, Ht.
Qed.

(** The loop always ends: a turn either marks a new URL visited, which the
    budget allows [max_pages] times, or shortens the queue. *)
Lemma crawl_loop_ends :
  forall (k : nat) q vis res fet,
    max_pages - Z.of_nat (size vis) <= Z.of_nat k ->
    exists fuel st, run fuel (State q vis res fet) = Some st.
Proof.
  induction k as [|k IHk]; intros q; induction q as [|current q IHq];
    intros vis res fet Hk.
  - exists 1%nat. eexists. reflexivity.
  - exists 1%nat. eexists. simpl. unfold loop_test. simpl.
    destruct (Z.ltb_spec (Z.of_nat (size vis)) max_pages); [lia | reflexivity].
  - exists 1%nat. eexists. reflexivity.
  - destruct (test (State (current :: q) vis res fet)) eqn:Ht.
    + destruct (loop_body_cases (State (current :: q) vis res fet) current q eq_refl)
        as [Hskip | (Hnew & Hvis & _)].
      * destruct (IHq vis res fet Hk) as (fuel & st & Hrun).
        exists (S fuel), st. simpl. rewrite Ht, Hskip. exact Hrun.
      * simpl in Hnew, Hvis.
        destruct (body (State (current :: q) vis res fet))
          as [q' vis' res' fet'] eqn:Hb.
        simpl in Hvis. subst vis'.
        destruct (IHk q' (vis ∪ {[current]}) res' fet') as (fuel & st & Hrun).
        { rewrite size_add_new by exact Hnew. lia. }
        exists (S fuel), st. simpl. rewrite Ht, Hb. exact Hrun.
    + exists 1%nat. eexists. simpl. rewrite Ht. reflexivity.
Qed.

(** What the loop returns is a state of the run in which the loop test
    fails. *)
Lemma crawl_loop_result fuel : forall st0 st st',
  reaches st0 st ->
  run fuel st = Some st' ->
  reaches st0 st' /\ test st' = false.
Proof.
  induction fuel as [|fuel IH]; intros st0 st st' Hr; simpl; [discriminate|].
  destruct (test st) eqn:Ht.
  - apply IH. constructor; assumption.
  - intros [= <-]. auto.
Qed.

Lemma loop_test_false st :
  test st = false ->
  queue st = [] \/ max_pages <= Z.of_nat (size (visited st)).
Proof.
  unfold loop_test. destruct (queue st); [auto|].
  intros Ht. apply Z.ltb_ge in Ht. auto.
Qed.

End CrawlerFacts.

(** C4: for every start URL and every positive [max_pages] the crawl loop
    ends, by queue exhaustion or by the budget, and the visited set then has
    at most [max_pages] elements. *)
Theorem visited_within_budget `{E : Externals}
    (start_url : string) (max_pages : Z) (same_domain : bool) (domain : string) :
  0 < max_pages ->
  exists fuel final,
    crawl_loop same_domain max_pages domain fuel (initial_state start_url)
      = Some final /\
    (queue final = [] \/ max_pages <= Z.of_nat (size (visited final))) /\
    Z.of_nat (size (visited final)) <= max_pages.
Proof.
  intros Hm.
  destruct (crawl_loop_ends same_domain max_pages domain
              (Z.to_nat max_pages) [start_url] ∅ ∅ [])
    as (fuel & final & Hrun); [lia|].
  exists fuel, final. split; [exact Hrun|].
  apply crawl_loop_result with (st0 := initial_state start_url) in Hrun
    as [Hreach Htest]; [|constructor].
  split.
  - apply loop_test_false, Htest.
  - apply (reachable_budget same_domain max_pages domain start_url);
      [lia | exact Hreach].
Qed.

Section FetchedOnce.
Context `{E : Externals}.
Variable same_domain : bool.
Variable max_pages : Z.
Variable domain : string.

Local Abbreviation body := (loop_body same_domain domain).
Local Abbreviation reaches := (reachable same_domain max_pages domain).

(** The visited set is the set of fetched URLs, and none was fetched twice. *)
Lemma fetched_invariant start st :
  reaches (initial_state start) st ->
  NoDup (fetched st) /\ visited st = list_to_set (fetched st).
Proof.
  intros Hr. induction Hr as [|st Hr [Hnd Hvis] Ht].
  - split; [constructor | reflexivity].
  - unfold loop_test in Ht.
    destruct (queue st) as [|current q] eqn:Hq; [discriminate|].
    destruct (loop_body_cases same_domain domain st current q Hq)
      as [-> | (Hnew & -> & -> & _)]; [auto|].
    split.
    + apply NoDup_app. split; [exact Hnd|]. split; [|apply NoDup_singleton].
      intros u Hu Hu'. apply list_elem_of_singleton in Hu' as ->.
      apply Hnew. rewrite Hvis. apply elem_of_list_to_set, Hu.
    + rewrite list_to_set_app_L, <- Hvis. simpl.
      rewrite (right_id_L ∅ (∪)). reflexivity.
Qed.

(** An entry is appended to the queue only while it is not visited. *)
Lemma enqueued_unvisited st u :
  u ∈ queue (body st) -> (u ∈ queue st) \/ (u ∉ visited (body st)).
Proof.
  destruct (queue st) as [|current q] eqn:Hq.
  - unfold loop_body. rewrite Hq. rewrite Hq. auto.
  - destruct (loop_body_cases same_domain domain st current q Hq)
      as [-> | (_ & _ & _ & _ & Hqueue)]; simpl.
    + intros Hu. left. right. exact Hu.
    + intros Hu. apply Hqueue in Hu as [Hu | [Hu _]]; [left; right|]; auto.
Qed.

(** A visited entry is dropped from the queue without any other effect. *)
Lemma visited_entry_skipped st current q :
  queue st = current :: q -> current ∈ visited st ->
  body st = State q (visited st) (results st) (fetched st).
Proof.
  intros Hq Hvis. unfold loop_body. rewrite Hq.
  rewrite bool_decide_eq_true_2 by exact Hvis. reflexivity.
Qed.

(** The link loop leaves the queue it finds in place and appends behind
    it; nothing that it appends is in the visited set it tests against
    (line 207). *)
Lemma enqueue_links_appends current (vis : gset string) hrefs : forall q,
  exists appended,
    enqueue_links same_domain domain current vis hrefs q = q ++ appended /\
    forall u, u ∈ appended -> u ∉ vis.
Proof.
  unfold enqueue_links.
  induction hrefs as [|href hrefs IH]; intros q; simpl.
  - exists []. split; [rewrite app_nil_r; reflexivity|].
    intros u Hu. inversion Hu.
  - destruct (IH (consider_link same_domain domain current vis q href))
      as (appended & Heq & Hnew).
    rewrite Heq. unfold consider_link.
    destruct (bool_decide (normalize (urljoin current href) ∉ vis)) eqn:Hvis;
      simpl; [|eauto].
    destruct (is_valid_url _ _); [|eauto].
    destruct (_ && _); [|eauto].
    exists (normalize (urljoin current href) :: appended).
    split; [rewrite <- app_assoc; reflexivity|].
    intros u Hu. apply elem_of_cons in Hu as [-> | Hu]; [|auto].
    apply bool_decide_eq_true in Hvis. exact Hvis.
Qed.

(** A turn removes the head of the queue, keeps the rest in place and
    appends behind it; nothing that it appends is in the visited set of that
    moment, in which the page just fetched already counts (line 200). *)
Lemma loop_body_appends st :
  exists appended,
    queue (body st) = tail (queue st) ++ appended /\
    forall u, u ∈ appended -> u ∉ visited (body st).
Proof.
  assert (Hnone : forall (q : list string) (vis : gset string),
            exists appended : list string,
              q = q ++ appended /\ forall u, u ∈ appended -> u ∉ vis).
  { intros q vis. exists []. split; [rewrite app_nil_r; reflexivity|].
    intros u Hu. inversion Hu. }
  unfold loop_body. destruct (queue st) as [|current q] eqn:Hq.
  - rewrite Hq. apply Hnone.
  - case_bool_decide; [apply Hnone|].
    destruct (same_domain && negb _); [apply Hnone|].
    destruct (negb (truthy (scrape_page current)) || _); simpl;
      [apply Hnone|].
    apply enqueue_links_appends.
Qed.

(** C3 (amended): at every point of a run no URL has been fetched twice,
    and the visited set is exactly the set of fetched URLs; a turn of the
    loop takes the head off the queue, leaves the rest of the queue in place
    and appends behind it only URLs that are not in the visited set at that
    moment; and a queue entry that is visited by the time it is dequeued is
    dropped without any other effect. (The queue itself may hold a URL more
    than once, and a queued URL may become visited.) *)
Theorem each_url_fetched_once start st :
  reaches (initial_state start) st ->
  NoDup (fetched st) /\
  visited st = list_to_set (fetched st) /\
  (exists appended,
     queue (body st) = tail (queue st) ++ appended /\
     forall u, u ∈ appended -> u ∉ visited (body st)) /\
  (forall current q, queue st = current :: q -> current ∈ visited st ->
     body st = State q (visited st) (results st) (fetched st)).
Proof.
  intros Hr. destruct (fetched_invariant start st Hr) as [Hnd Hvis].
  split; [exact Hnd|]. split; [exact Hvis|]. split.
  - apply loop_body_appends.
  - intros current q. apply visited_entry_skipped.
Qed.

(** With [same_domain] off no link is ever appended (line 208 asks for
    [same_domain and ...]): a turn only removes the head of the queue. *)
Lemma enqueue_links_same_domain_off current (vis : gset string) hrefs q :
  enqueue_links false domain current vis hrefs q = q.
Proof.
  unfold enqueue_links. revert q.
  induction hrefs as [|href hrefs IH]; intros q; simpl; [reflexivity|].
  rewrite <- (IH q) at 2. f_equal. unfold consider_link.
  destruct (_ && _); reflexivity.
Qed.

Lemma loop_body_same_domain_off st :
  queue (loop_body false domain st) = tail (queue st).
Proof.
  unfold loop_body.
  destruct (queue st) as [|current q] eqn:Hq; [rewrite Hq; reflexivity|].
  case_bool_decide; [reflexivity|]. simpl.
  destruct (_ || _); simpl; [reflexivity|].
  apply enqueue_links_same_domain_off.
Qed.

(** The queue and the keys of [results] hold the start URL and normalized
    URLs only. *)
Lemma entries_start_or_normalized start st :
  reaches (initial_state start) st ->
  (forall u, u ∈ queue st -> u = start \/ is_normalized u = true) /\
  (forall k, is_Some (results st !! k) -> k = start \/ is_normalized k = true).
Proof.
  intros Hr. induction Hr as [|st Hr [IHq IHr] Ht].
  - split.
    + intros u Hu. apply list_elem_of_singleton in Hu. auto.
    + intros k [v Hk]. simpl in Hk. rewrite lookup_empty in Hk. discriminate.
  - unfold loop_test in Ht.
    destruct (queue st) as [|current q] eqn:Hq; [discriminate|].
    destruct (loop_body_cases same_domain domain st current q Hq)
      as [-> | (_ & _ & _ & Hres & Hqueue)].
    + simpl. split; [|exact IHr]. intros u Hu. apply IHq. right. exact Hu.
    + split.
      * intros u Hu. apply Hqueue in Hu as [Hu | (_ & h & ->)].
        -- apply IHq. right. exact Hu.
        -- right. apply normalize_is_normalized.
      * intros k Hk.
        destruct Hres as [Hres | [cleaned Hres]]; rewrite Hres in Hk; [auto|].
        apply lookup_insert_is_Some in Hk as [<- | [_ Hk]]; [|auto].
        apply IHq. left.
Qed.

End FetchedOnce.

(** The keys of the returned mapping are normalized whenever the start URL
    has no fragment part. *)
Lemma result_keys_normalized `{E : Externals} fuel start_url max_pages same_domain r :
  has_char hash start_url = false ->
  scrape_website_recursive fuel start_url max_pages same_domain = Some r ->
  forall k, is_Some (r !! k) -> is_normalized k = true.
Proof.
  intros Hhash. unfold scrape_website_recursive, crawl.
  destruct get_driver_ok.
  - destruct (crawl_loop _ _ _ _ _) as [st|] eqn:Hrun; [|discriminate].
    intros [= <-] k Hk.
    apply crawl_loop_result with (st0 := initial_state (rstrip is_slash start_url))
      in Hrun as [Hreach _]; [|constructor].
    apply entries_start_or_normalized in Hreach as [_ Hkeys].
    destruct (Hkeys k Hk) as [-> | Hn]; [|exact Hn].
    unfold is_normalized. rewrite rstrip_keeps_absent by exact Hhash. simpl.
    destruct (last_char _) as [c|] eqn:Hc; [|reflexivity].
    apply rstrip_last in Hc. rewrite Hc. reflexivity.
  - intros [= <-] k [v Hk]. rewrite lookup_empty in Hk. discriminate.
Qed.

(* ===================================================================== *)
(** * The crawler on the example site *)
(* ===================================================================== *)

(** The same for the function as a whole: it returns, and the state it
    stops in (if a driver could be created at all) is within the budget. *)
Lemma crawl_returns_within_budget `{E : Externals}
    (start_url : string) (max_pages : Z) (same_domain : bool) :
  0 < max_pages ->
  exists fuel r,
    crawl fuel start_url max_pages same_domain = Some r /\
    forall final, r = Some final ->
      Z.of_nat (size (visited final)) <= max_pages.
Proof.
  intros Hm. unfold crawl.
  set (start := rstrip is_slash start_url).
  set (domain := urlparse_netloc start).
  destruct (crawl_loop_ends same_domain max_pages domain
              (Z.to_nat max_pages) [start] ∅ ∅ [])
    as (fuel & final & Hrun); [lia|].
  exists fuel. destruct get_driver_ok.
  - unfold initial_state. rewrite Hrun. eexists. split; [reflexivity|].
    intros ? [= <-].
    apply crawl_loop_result with (st0 := initial_state start) in Hrun
      as [Hreach _]; [|constructor].
    apply (reachable_budget same_domain max_pages domain start);
      [lia | exact Hreach].
  - eexists. split; [reflexivity|]. intros ? [=].
Qed.

Lemma visited_within_budget_witness :
  exists fuel final,
    crawl_loop true 2 "x.com" fuel (initial_state "http://x.com") = Some final /\
    (queue final = [] \/ 2 <= Z.of_nat (size (visited final))) /\
    Z.of_nat (size (visited final)) <= 2.
Proof.
  apply (visited_within_budget (E := site) "http://x.com" 2 true "x.com").
  lia.
Defined.

Lemma after_home_reachable :
  reachable true 3 "x.com" (initial_state "http://x.com") after_home.
Proof. apply reach_turn; [apply reach_init | reflexivity]. Qed.

Lemma after_page_b_reachable :
  reachable true 3 "x.com" (initial_state "http://x.com") after_page_b.
Proof. apply reach_turn; [apply after_home_reachable | reflexivity]. Qed.

(** C3, counterexample: the home page of the example site links twice to
    the same page. After the first turn of the loop that page is in the queue
    twice; after the second turn it is visited and still in the queue. *)
Lemma frontier_holds_duplicates :
  reachable true 3 "x.com" (initial_state "http://x.com") after_home /\
  queue after_home = ["http://x.com/b"; "http://x.com/b"] /\
  ~ frontier_distinct after_home /\
  reachable true 3 "x.com" (initial_state "http://x.com") after_page_b /\
  queue after_page_b = ["http://x.com/b"] /\
  fetched after_page_b = ["http://x.com"; "http://x.com/b"] /\
  ~ frontier_distinct after_page_b.
Proof.
  assert (Hq1 : queue after_home = ["http://x.com/b"; "http://x.com/b"])
    by (vm_compute; reflexivity).
  assert (Hq2 : queue after_page_b = ["http://x.com/b"])
    by (vm_compute; reflexivity).
  assert (Hf2 : fetched after_page_b = ["http://x.com"; "http://x.com/b"])
    by (vm_compute; reflexivity).
  split; [apply after_home_reachable|]. split; [exact Hq1|]. split.
  { intros [Hnd _]. rewrite Hq1 in Hnd.
    apply NoDup_cons in Hnd as [Hnotin _]. apply Hnotin. left. }
  split; [apply after_page_b_reachable|]. split; [exact Hq2|].
  split; [exact Hf2|].
  intros [_ Hfresh]. apply (Hfresh "http://x.com/b").
  - rewrite Hq2. left.
  - destruct (fetched_invariant true 3 "x.com" "http://x.com" after_page_b
                after_page_b_reachable) as [_ ->].
    rewrite Hf2. apply elem_of_list_to_set. right. left.
Qed.

Lemma each_url_fetched_once_witness :
  NoDup (fetched (initial_state "http://x.com")) /\
  visited (initial_state "http://x.com")
    = list_to_set (fetched (initial_state "http://x.com")) /\
  (exists appended,
     queue (loop_body true "x.com" (initial_state "http://x.com"))
       = tail (queue (initial_state "http://x.com")) ++ appended /\
     forall u, u ∈ appended ->
       u ∉ visited (loop_body true "x.com" (initial_state "http://x.com"))) /\
  (forall current q, queue (initial_state "http://x.com") = current :: q ->
     current ∈ visited (initial_state "http://x.com") ->
     loop_body true "x.com" (initial_state "http://x.com") =
     State q (visited (initial_state "http://x.com"))
             (results (initial_state "http://x.com"))
             (fetched (initial_state "http://x.com"))).
Proof.
  apply (each_url_fetched_once (E := site) true 3 "x.com" "http://x.com").
  apply reach_init.
Defined.

(** C1 (the code departs from the claim): crawl of the example site from
    its home page with [same_domain = False] and a budget of 3 pages. The
    home page links to [http://x.com/b] and [http://y.org/c]; both pass the
    URL filter and neither is visited, but neither is enqueued: the queue is
    empty after the first turn and the crawl ends with the home page as the
    only page fetched. *)
Theorem same_domain_off_enqueues_nothing :
  soup_hrefs (scrape_page "http://x.com") =
    ["http://x.com/b"; "http://x.com/b#more"; "http://y.org/c"] /\
  map (fun href => normalize (urljoin "http://x.com" href))
      (soup_hrefs (scrape_page "http://x.com")) =
    ["http://x.com/b"; "http://x.com/b"; "http://y.org/c"] /\
  is_valid_url urlparse_path "http://x.com/b" = true /\
  is_valid_url urlparse_path "http://y.org/c" = true /\
  fetched (loop_body false "x.com" (initial_state "http://x.com")) = ["http://x.com"] /\
  queue (loop_body false "x.com" (initial_state "http://x.com")) = [] /\
  exists final,
    crawl 5 "http://x.com/" 3 false = Some (Some final) /\
    fetched final = ["http://x.com"].
Proof.
  repeat split; try (vm_compute; reflexivity).
  eexists. split; [vm_compute; reflexivity | reflexivity].
Qed.

(** C5 (the code departs from the claim): crawl of the example site from
    [http://x.com/docs#intro] with a budget of 2 pages. The start URL keeps
    its fragment (line 160 strips only the trailing slash) and becomes a key
    of the result; the page's link to itself is normalized to
    [http://x.com/docs], which is not in the visited set, so the same page is
    fetched again and stored under a second key. *)
Theorem start_url_fragment_becomes_key :
  exists r text,
    scrape_website_recursive 5 "http://x.com/docs#intro" 2 true = Some r /\
    r !! "http://x.com/docs#intro" = Some text /\
    r !! "http://x.com/docs" = Some text /\
    is_normalized "http://x.com/docs#intro" = false.
Proof.
  do 2 eexists. split; [vm_compute; reflexivity|].
  split; [vm_compute; reflexivity|].
  split; [vm_compute; reflexivity | reflexivity].
Qed.

(* ===================================================================== *)
(** * The text cleaner *)
(* ===================================================================== *)

Lemma append_cons c s t : String c s +:+ t = String c (s +:+ t).
Proof. reflexivity. Qed.

Lemma append_empty t : EmptyString +:+ t = t.
Proof. reflexivity. Qed.

Lemma not_linebreak_not_nl c : is_linebreak c = false -> Ascii.eqb c nl = false.
Proof.
  intros H. destruct (Ascii.eqb_spec c nl) as [->|]; [discriminate | reflexivity].
Qed.

Lemma has_char_cons c a s :
  has_char c (String a s) = Ascii.eqb a c || has_char c s.
Proof. reflexivity. Qed.

(** No line of [splitlines] contains a newline. *)
Lemma splitlines_go_no_nl s : forall after_cr,
  Forall (fun l => has_char nl l = false) (splitlines_go after_cr s).
Proof.
  induction s as [|c s IH]; intros after_cr; simpl; [constructor|].
  destruct (after_cr && Ascii.eqb c nl); [apply IH|].
  destruct (is_linebreak c) eqn:Hc.
  - constructor; [reflexivity | apply IH].
  - apply not_linebreak_not_nl in Hc. specialize (IH false).
    destruct (splitlines_go false s) as [|l ls]; simpl.
    + constructor; [|constructor]. rewrite has_char_cons, Hc. reflexivity.
    + inversion IH as [|? ? Hl Hls]; subst. constructor; [|exact Hls].
      rewrite has_char_cons, Hc. exact Hl.
Qed.

Lemma lstrip_keeps_absent p c s :
  has_char c s = false -> has_char c (lstrip p s) = false.
Proof.
  induction s as [|a s IH]; [reflexivity|]. intros H. simpl.
  destruct (p a); [|exact H].
  apply IH. rewrite has_char_cons in H.
  apply orb_false_elim in H as [_ H]. exact H.
Qed.

Lemma strip_keeps_absent c s :
  has_char c s = false -> has_char c (strip s) = false.
Proof.
  intros H. apply rstrip_keeps_absent, lstrip_keeps_absent, H.
Qed.

Lemma lstrip_head p s : head_kept p (lstrip p s).
Proof.
  induction s as [|c s IH]; simpl; [exact I|].
  destruct (p c) eqn:Hc; [exact IH | exact Hc].
Qed.

Lemma lstrip_fixed p s : head_kept p s -> lstrip p s = s.
Proof. destruct s as [|c s]; simpl; [reflexivity | intros ->; reflexivity]. Qed.

Lemma rstrip_head p s : head_kept p s -> head_kept p (rstrip p s).
Proof.
  destruct s as [|c s]; [intros _; exact I|]. intros Hc.
  rewrite rstrip_cons. destruct (rstrip p s).
  - simpl in Hc. rewrite Hc. exact Hc.
  - exact Hc.
Qed.

(** [strip] is idempotent. *)
Lemma strip_idempotent s : strip (strip s) = strip s.
Proof.
  unfold strip.
  rewrite (lstrip_fixed is_space (rstrip is_space (lstrip is_space s))).
  - apply rstrip_idempotent.
  - apply rstrip_head, lstrip_head.
Qed.

(** What lines 87-88 keep: stripped lines without a newline, longer than
    3 characters. *)
Lemma kept_lines_spec text :
  Forall (fun l => has_char nl l = false /\ l <> EmptyString /\
                   3 < len l /\ strip l = l)
         (kept_lines text).
Proof.
  unfold kept_lines, splitlines.
  pose proof (splitlines_go_no_nl text false) as Hno.
  induction Hno as [|x xs Hx Hxs IH]; [constructor|].
  rewrite map_cons, filter_cons.
  destruct (decide _) as [Hkeep|]; [|exact IH].
  constructor; [|exact IH].
  apply andb_prop in Hkeep as [Hne Hlen].
  split; [apply strip_keeps_absent, Hx|].
  split; [intros Heq; rewrite Heq in Hne; discriminate|].
  split; [apply Z.gtb_lt in Hlen; lia | apply strip_idempotent].
Qed.

Lemma split_no_sep sep s : has_char sep s = false -> split sep s = [s].
Proof.
  induction s as [|c s IH]; [reflexivity|].
  rewrite has_char_cons. intros H. apply orb_false_elim in H as [Hc Hs].
  simpl. rewrite Hc, IH by exact Hs. reflexivity.
Qed.

Lemma split_append sep x t :
  has_char sep x = false ->
  split sep (x +:+ String sep t) = x :: split sep t.
Proof.
  induction x as [|c x IH]; intros H.
  - rewrite append_empty. simpl. rewrite Ascii.eqb_refl. reflexivity.
  - rewrite has_char_cons in H. apply orb_false_elim in H as [Hc Hx].
    rewrite append_cons. simpl. rewrite Hc, IH by exact Hx. reflexivity.
Qed.

Lemma join_cons2 sep x y rest :
  join sep (x :: y :: rest) = x +:+ sep +:+ join sep (y :: rest).
Proof. reflexivity. Qed.

(** Splitting the joined lines at the newlines gives the lines back. *)
Lemma split_join lines :
  lines <> [] ->
  Forall (fun l => has_char nl l = false) lines ->
  split nl (join (String nl EmptyString) lines) = lines.
Proof.
  intros Hne Hall. induction Hall as [|x xs Hx Hxs IH]; [congruence|].
  destruct xs as [|y ys].
  - simpl. apply split_no_sep, Hx.
  - rewrite join_cons2, append_cons, append_empty.
    rewrite split_append by exact Hx. f_equal. apply IH. discriminate.
Qed.

Lemma join_head x rest :
  x <> EmptyString ->
  exists c t, x = String c t /\
    exists t', join (String nl EmptyString) (x :: rest) = String c t'.
Proof.
  intros Hx. destruct x as [|c t]; [congruence|].
  exists c, t. split; [reflexivity|].
  destruct rest; [eexists; reflexivity|].
  rewrite join_cons2, append_cons. eexists; reflexivity.
Qed.

Lemma lines_of_join lines :
  Forall (fun l => has_char nl l = false /\ l <> EmptyString) lines ->
  lines_of (join (String nl EmptyString) lines) = lines.
Proof.
  intros Hall. destruct lines as [|x rest]; [reflexivity|].
  inversion Hall as [|? ? [_ Hx] _]; subst.
  destruct (join_head x rest Hx) as (c & t & _ & t' & Hj).
  unfold lines_of. rewrite Hj, <- Hj.
  apply split_join; [discriminate|].
  eapply Forall_impl; [exact Hall|]. intros l [H _]. exact H.
Qed.

Lemma adjacent_nl_append x t :
  has_char nl x = false ->
  adjacent_nl (x +:+ String nl t) = head_is nl t || adjacent_nl t.
Proof.
  induction x as [|c x IH]; intros H.
  - reflexivity.
  - rewrite has_char_cons in H. apply orb_false_elim in H as [Hc Hx].
    rewrite append_cons. simpl. rewrite Hc, IH by exact Hx. reflexivity.
Qed.

Lemma adjacent_nl_absent x : has_char nl x = false -> adjacent_nl x = false.
Proof.
  induction x as [|c x IH]; [reflexivity|].
  rewrite has_char_cons. intros H. apply orb_false_elim in H as [Hc Hx].
  simpl. rewrite Hc, IH by exact Hx. reflexivity.
Qed.

(** Joined non-empty lines never put two newlines side by side. *)
Lemma join_no_adjacent_nl lines :
  Forall (fun l => has_char nl l = false /\ l <> EmptyString) lines ->
  adjacent_nl (join (String nl EmptyString) lines) = false.
Proof.
  intros Hall. induction Hall as [|x xs [Hx Hne] Hxs IH]; [reflexivity|].
  destruct xs as [|y ys].
  - simpl. apply adjacent_nl_absent, Hx.
  - rewrite join_cons2, append_cons, append_empty.
    rewrite adjacent_nl_append by exact Hx. rewrite IH, orb_false_r.
    inversion Hxs as [|? ? [Hy Hyne] _]; subst.
    destruct (join_head y ys Hyne) as (c & t & -> & t' & ->).
    simpl. rewrite has_char_cons in Hy.
    apply orb_false_elim in Hy as [Hc _]. exact Hc.
Qed.

Lemma sub_newlines_cons c s :
  sub_newlines (String c s) =
  match s with
  | String c1 (String c2 _) =>
      if Ascii.eqb c nl && Ascii.eqb c1 nl && Ascii.eqb c2 nl
      then sub_newlines s
      else String c (sub_newlines s)
  | _ => String c (sub_newlines s)
  end.
Proof. reflexivity. Qed.

(** Without two newlines side by side there is nothing to collapse. *)
Lemma sub_newlines_fixed s : adjacent_nl s = false -> sub_newlines s = s.
Proof.
  induction s as [|c s IH]; [reflexivity|].
  intros H. simpl in H. apply orb_false_elim in H as [Hc Hs].
  specialize (IH Hs). rewrite sub_newlines_cons, IH.
  destruct s as [|c1 [|c2 s2]]; try reflexivity.
  simpl in Hc. rewrite Hc. reflexivity.
Qed.

Lemma clean_text_lines text :
  sub_newlines (joined_lines text) = joined_lines text /\
  lines_of (clean_text text) = kept_lines text.
Proof.
  assert (Hall : Forall (fun l => has_char nl l = false /\ l <> EmptyString)
                        (kept_lines text)).
  { eapply Forall_impl; [apply kept_lines_spec|]. intros l (H1 & H2 & _). auto. }
  assert (Hfix : sub_newlines (joined_lines text) = joined_lines text)
    by (apply sub_newlines_fixed, join_no_adjacent_nl, Hall).
  split; [exact Hfix|].
  unfold clean_text. rewrite Hfix. apply lines_of_join, Hall.
Qed.

(** C10: for every input markup, every line of the text returned by
    [clean_body_content] is non-empty and longer than 3 characters, none is
    blank (each line is its own [strip], and not empty), and the final
    collapsing of three or more newlines leaves the joined lines as they
    are. *)
Theorem cleaned_lines_long `{E : Externals} (body_content : string) :
  Forall (fun l => l <> EmptyString /\ 3 < len l /\ strip l <> EmptyString)
         (lines_of (clean_body_content body_content)) /\
  adjacent_nl (clean_body_content body_content) = false /\
  clean_body_content body_content = joined_lines (soup_get_text body_content).
Proof.
  unfold clean_body_content.
  destruct (clean_text_lines (soup_get_text body_content)) as [Hfix Hlines].
  split; [|split].
  - rewrite Hlines. eapply Forall_impl; [apply kept_lines_spec|].
    intros l (_ & Hne & Hlen & Hstrip). rewrite Hstrip. auto.
  - unfold clean_text. rewrite Hfix. apply join_no_adjacent_nl.
    eapply Forall_impl; [apply kept_lines_spec|]. intros l (H1 & H2 & _). auto.
  - unfold clean_text. exact Hfix.
Qed.

(* ===================================================================== *)
(** * The URL filter *)
(* ===================================================================== *)

Lemma lower_append a b : lower (a +:+ b) = lower a +:+ lower b.
Proof.
  induction a as [|c a IH]; [reflexivity|].
  rewrite append_cons. simpl. rewrite IH. reflexivity.
Qed.

Lemma lower_append_inv e : forall x y,
  lower e = x +:+ y ->
  exists e1 e2, e = e1 +:+ e2 /\ lower e1 = x /\ lower e2 = y.
Proof.
  induction e as [|c e IH]; intros x y H.
  - destruct x; [|discriminate]. rewrite append_empty in H.
    exists EmptyString, EmptyString. auto.
  - destruct x as [|a x].
    + exists EmptyString, (String c e). auto.
    + rewrite append_cons in H. simpl in H. injection H as Hc He.
      destruct (IH x y He) as (e1 & e2 & -> & <- & <-).
      exists (String c e1), e2. simpl. rewrite Hc. auto.
Qed.

Lemma append_assoc (a b c : string) : (a +:+ b) +:+ c = a +:+ (b +:+ c).
Proof.
  induction a as [|x a IH]; [reflexivity|].
  rewrite !append_cons, IH. reflexivity.
Qed.

(** What a pattern without [$] consumes, read in lower case, is one of the
    strings of its language. *)
Lemma rmatch_lang r :
  eos_free r = true ->
  forall s t,
    In t (rmatch r s) <-> exists e, s = e +:+ t /\ In (lower e) (lang r).
Proof.
  induction r as [|c|r1 IH1 r2 IH2|r1 IH1 r2 IH2|r1 IH1|]; simpl; intros Hfree s t.
  - split.
    + intros [<- | []]. exists EmptyString. auto.
    + intros (e & -> & [He | []]). destruct e; [left; reflexivity | discriminate].
  - split.
    + destruct s as [|a s]; [intros []|].
      destruct (Ascii.eqb_spec (lower_char a) (lower_char c)) as [Hac|];
        [|intros []].
      intros [<- | []]. exists (String a EmptyString). simpl.
      rewrite Hac. auto.
    + intros (e & -> & [He | []]).
      destruct e as [|a [|b e]]; try discriminate.
      simpl in He. injection He as He.
      rewrite append_cons, append_empty.
      rewrite <- He, Ascii.eqb_refl. left; reflexivity.
  - apply andb_prop in Hfree as [Hf1 Hf2].
    rewrite in_flat_map. split.
    + intros (m & Hm & Ht).
      apply (IH1 Hf1) in Hm as (e1 & -> & He1).
      apply (IH2 Hf2) in Ht as (e2 & -> & He2).
      exists (e1 +:+ e2). rewrite append_assoc. split; [reflexivity|].
      apply in_flat_map. exists (lower e1). split; [exact He1|].
      apply in_map_iff. exists (lower e2). rewrite lower_append. auto.
    + intros (e & -> & He). apply in_flat_map in He as (x & Hx & Hy).
      apply in_map_iff in Hy as (y & Hxy & Hy).
      symmetry in Hxy. apply lower_append_inv in Hxy as (e1 & e2 & -> & <- & <-).
      exists (e2 +:+ t). split.
      * apply (IH1 Hf1). exists e1. rewrite append_assoc. auto.
      * apply (IH2 Hf2). exists e2. auto.
  - apply andb_prop in Hfree as [Hf1 Hf2].
    rewrite in_app_iff, (IH1 Hf1), (IH2 Hf2). split.
    + intros [(e & -> & He) | (e & -> & He)]; exists e;
        (split; [reflexivity | apply in_app_iff; auto]).
    + intros (e & -> & He). apply in_app_iff in He as [He | He]; eauto.
  - rewrite in_app_iff, (IH1 Hfree). split.
    + intros [(e & -> & He) | [<- | []]].
      * exists e. split; [reflexivity | apply in_app_iff; auto].
      * exists EmptyString. split; [reflexivity | apply in_app_iff; simpl; auto].
    + intros (e & -> & He). apply in_app_iff in He as [He | [He | []]].
      * left. eauto.
      * right. destruct e; [left; reflexivity | discriminate].
  - discriminate.
Qed.

(** [search] tries every suffix. *)
Lemma search_spec r s :
  search r s = true <->
  exists pre suf t, s = pre +:+ suf /\ In t (rmatch r suf).
Proof.
  induction s as [|c s IH]; simpl.
  - destruct (rmatch r EmptyString) as [|t ts] eqn:Hm.
    + split; [discriminate|]. intros (pre & suf & t & Hs & Ht).
      destruct pre; [|discriminate]. rewrite append_empty in Hs. subst suf.
      rewrite Hm in Ht. destruct Ht.
    + split; [|reflexivity]. intros _.
      exists EmptyString, EmptyString, t. rewrite Hm. split; [reflexivity | left; reflexivity].
  - destruct (rmatch r (String c s)) as [|t ts] eqn:Hm.
    + rewrite IH. split.
      * intros (pre & suf & t & -> & Ht). exists (String c pre), suf, t. auto.
      * intros (pre & suf & t & Hs & Ht). destruct pre as [|a pre].
        -- rewrite append_empty in Hs. subst suf. rewrite Hm in Ht. destruct Ht.
        -- rewrite append_cons in Hs. injection Hs as _ ->. eauto.
    + split; [|reflexivity]. intros _.
      exists EmptyString, (String c s), t. rewrite Hm.
      split; [reflexivity | left; reflexivity].
Qed.

Lemma lower_char_dot a : lower_char a = "."%char -> a = "."%char.
Proof.
  destruct a as [[] [] [] [] [] [] [] []]; vm_compute; intros H;
    (reflexivity || discriminate H).
Qed.

Lemma lower_char_question a : lower_char a = "?"%char -> a = "?"%char.
Proof.
  destruct a as [[] [] [] [] [] [] [] []]; vm_compute; intros H;
    (reflexivity || discriminate H).
Qed.


Lemma rmatch_cat r1 r2 s t :
  In t (rmatch (Cat r1 r2) s) <->
  exists m, In m (rmatch r1 s) /\ In t (rmatch r2 m).
Proof. simpl. apply in_flat_map. Qed.

Lemma rmatch_lit c s m :
  In m (rmatch (Lit c) s) <->
  exists a, s = String a m /\ lower_char a = lower_char c.
Proof.
  simpl. destruct s as [|a s].
  - split; [intros [] | intros (a & H & _); discriminate].
  - destruct (Ascii.eqb_spec (lower_char a) (lower_char c)) as [Hac|Hac].
    + split.
      * intros [<- | []]. eauto.
      * intros (b & [= <- <-] & _). left; reflexivity.
    + split; [intros []|]. intros (b & [= <- <-] & Hb). contradiction.
Qed.

(** [($|\?)] *)
Lemma rmatch_tail u :
  (exists t, In t (rmatch (Alt Eos (Lit "?")) u)) <-> ends_or_query u.
Proof.
  unfold ends_or_query. split.
  - intros (t & Ht). cbn [rmatch] in Ht. apply in_app_iff in Ht as [Ht | Ht].
    + destruct (String.eqb_spec u EmptyString) as [->|]; [auto|].
      destruct (String.eqb_spec u (String nl EmptyString)) as [->|]; [auto|].
      destruct Ht.
    + right; right. destruct u as [|a u]; [destruct Ht|]. simpl.
      destruct (Ascii.eqb_spec (lower_char a) (lower_char "?")) as [Ha|];
        [|destruct Ht].
      apply lower_char_question in Ha. subst a. reflexivity.
  - intros [-> | [-> | Hq]].
    + exists EmptyString. left; reflexivity.
    + exists (String nl EmptyString). left; reflexivity.
    + destruct u as [|a u]; [discriminate|]. simpl in Hq.
      apply Ascii.eqb_eq in Hq. subst a.
      exists u. cbn [rmatch]. apply in_app_iff. right. left; reflexivity.
Qed.

Lemma lang_extension_group : lang extension_group = denied_extensions.
Proof. reflexivity. Qed.

Lemma eos_free_extension_group : eos_free extension_group = true.
Proof. reflexivity. Qed.

(** C6, counterexample: a URL whose path is [/page] is refused because its
    query string ends in [.pdf], and a URL whose path ends in [.pdf] is not
    refused because a fragment follows. *)
Lemma extension_in_query_rejects :
  path_of "http://x.com/page?file=a.pdf" = "/page" /\
  path_has_denied_extension "http://x.com/page?file=a.pdf" = false /\
  rejected_by_extension "http://x.com/page?file=a.pdf" = true /\
  ~ extension_test_reads_path "http://x.com/page?file=a.pdf" /\
  path_of "http://x.com/a.pdf#top" = "/a.pdf" /\
  rejected_by_extension "http://x.com/a.pdf#top" = false /\
  ~ extension_test_reads_path "http://x.com/a.pdf#top".
Proof.
  repeat split; try reflexivity.
  - intros [H _]. specialize (H eq_refl). discriminate H.
  - intros [_ H]. specialize (H eq_refl). discriminate H.
Qed.

(** C6 (amended): [is_valid_url] rejects a URL on extension grounds exactly
    when, somewhere in the whole URL string, a dot and one of the deny-listed
    extensions (matched case-insensitively) are directly followed by the end
    of the string (or by a newline that ends it) or by a question mark; the
    path is not looked at, so an extension at the end of the query string does
    cause rejection. *)
Theorem rejected_by_extension_iff url :
  rejected_by_extension url = true <->
  exists pre e post,
    url = pre +:+ "." +:+ e +:+ post /\
    In (lower e) denied_extensions /\
    ends_or_query post.
Proof.
  unfold rejected_by_extension, skip_extensions. rewrite search_spec. split.
  - intros (pre & suf & t & -> & Ht).
    apply rmatch_cat in Ht as (m & Hdot & Ht).
    apply rmatch_lit in Hdot as (a & -> & Ha).
    apply lower_char_dot in Ha. subst a.
    apply rmatch_cat in Ht as (u & Hext & Ht).
    apply (rmatch_lang _ eos_free_extension_group) in Hext as (e & -> & He).
    rewrite lang_extension_group in He.
    exists pre, e, u. split; [reflexivity|]. split; [exact He|].
    apply rmatch_tail. eauto.
  - intros (pre & e & post & -> & He & Hpost).
    apply rmatch_tail in Hpost as (t & Ht).
    exists pre, ("." +:+ e +:+ post), t. split; [reflexivity|].
    apply rmatch_cat. exists (e +:+ post). split.
    + apply rmatch_lit. exists "."%char. auto.
    + apply rmatch_cat. exists post. split; [|exact Ht].
      apply (rmatch_lang _ eos_free_extension_group). exists e.
      rewrite lang_extension_group. auto.
Qed.

(** The examples of the specification, with the path read by [path_of]. *)
Example is_valid_url_examples :
  is_valid_url path_of "https://x.com/a.pdf" = false /\
  is_valid_url path_of "https://x.com/login" = false /\
  is_valid_url path_of "https://x.com/products" = true /\
  is_valid_url path_of "ftp://x.com" = false /\
  is_valid_url path_of "https://x.com/Report.DOCX?v=2" = false /\
  is_valid_url path_of "" = false.
Proof. repeat split; reflexivity. Qed.

(** The filter itself refuses every URL that the extension test refuses. *)
Lemma is_valid_url_rejects_extension urlparse_path url :
  rejected_by_extension url = true -> is_valid_url urlparse_path url = false.
Proof.
  intros H. unfold is_valid_url. rewrite H.
  destruct (negb (truthy url)); [reflexivity|].
  destruct (negb (startswith "http" url)); reflexivity.
Qed.

(* ===================================================================== *)
(** * More about the chunker: windows, coverage, counts *)
(* ===================================================================== *)

Lemma str_take_all s : str_take (String.length s) s = s.
Proof. induction s as [|c s IH]; simpl; [reflexivity | rewrite IH; reflexivity]. Qed.

Lemma slice_full s : slice s 0 (len s) = s.
Proof.
  unfold slice. rewrite !adjust_inside by (pose proof (len_nonneg s); lia).
  rewrite Z.sub_0_r. unfold len. rewrite Nat2Z.id. simpl.
  destruct s; apply str_take_all.
Qed.

Section WindowFacts.

Variable dom_content : string.
Variable max_length overlap : Z.

Let n := len dom_content.

Local Abbreviation windows := (fun fuel start =>
  split_windows fuel dom_content max_length overlap start).

(** The chunks are the slices of the windows, in order. *)
Lemma split_loop_windows fuel : forall start chunks,
  split_loop fuel dom_content max_length overlap start chunks =
  match windows fuel start with
  | Some ws => Some (chunks ++ map (chunk_of dom_content) ws)
  | None => None
  end.
Proof.
  induction fuel as [|fuel IH]; intros start chunks; [reflexivity|].
  cbn [split_loop split_windows]. fold n.
  destruct (start <? n); [|rewrite app_nil_r; reflexivity].
  destruct (window_end dom_content max_length start <? n).
  - rewrite IH.
    destruct (split_windows fuel _ _ _ _) as [ws|]; [|reflexivity].
    rewrite <- app_assoc. reflexivity.
  - reflexivity.
Qed.

(** A window that stops short of the text's end reaches the midpoint. *)
Lemma window_end_reaches_midpoint start :
  0 <= max_length ->
  window_end dom_content max_length start < n ->
  start + max_length / 2 <= window_end dom_content max_length start.
Proof.
  intros Hm. unfold window_end. fold n.
  assert (max_length / 2 <= max_length)
    by (apply Z.div_le_upper_bound; lia).
  destruct (Z.ltb_spec (Z.min (start + max_length) n) n); [|lia].
  destruct (Z.gtb_spec (rfind nl dom_content start (Z.min (start + max_length) n))
                     (start + max_length / 2)); lia.
Qed.

(** With [max_length >= 1] a window is never empty. *)
Lemma window_end_beyond_start start :
  1 <= max_length -> 0 <= start < n ->
  start < window_end dom_content max_length start.
Proof.
  intros Hm Hs. unfold window_end. fold n.
  pose proof (Z.div_pos max_length 2 ltac:(lia) ltac:(lia)).
  destruct (Z.ltb_spec (Z.min (start + max_length) n) n); [|lia].
  destruct (Z.gtb_spec (rfind nl dom_content start (Z.min (start + max_length) n))
                     (start + max_length / 2)); lia.
Qed.

Lemma windows_head fuel start a b ws :
  windows fuel start = Some ((a, b) :: ws) ->
  a = start /\ b = window_end dom_content max_length start /\ start < n.
Proof.
  destruct fuel as [|fuel]; [discriminate|]. cbn [split_windows]. fold n.
  destruct (Z.ltb_spec start n); [|discriminate].
  destruct (window_end dom_content max_length start <? n).
  - destruct (split_windows fuel _ _ _ _); [|discriminate].
    intros [= <- <- _]. auto.
  - intros [= <- <- _]. auto.
Qed.

(** Every window lies inside the text. *)
Lemma windows_inside fuel :
  0 <= max_length ->
  forall start ws,
    0 <= start ->
    windows fuel start = Some ws ->
    Forall (fun w => 0 <= fst w <= snd w /\ snd w <= n) ws.
Proof.
  intros Hm. induction fuel as [|fuel IH]; intros start ws Hs; [discriminate|].
  cbn [split_windows]. fold n.
  destruct (Z.ltb_spec start n); [|intros [= <-]; constructor].
  pose proof (window_end_bounds dom_content max_length start Hm ltac:(fold n; lia)) as Hw.
  fold n in Hw.
  destruct (Z.ltb_spec (window_end dom_content max_length start) n) as [Hlt|Hge].
  - destruct (split_windows fuel _ _ _ _) as [ws'|] eqn:Hws; [|discriminate].
    intros [= <-]. constructor; [simpl; lia|].
    pose proof (Z.div_pos max_length 2 Hm ltac:(lia)).
    eapply IH; [|exact Hws]. unfold next_start. lia.
  - intros [= <-]. constructor; [simpl; lia | constructor].
Qed.

(** With a non-negative overlap the windows leave no gap: every position
    from [start] on is inside one of them. *)
Lemma windows_cover fuel :
  0 <= max_length -> 0 <= overlap ->
  forall start ws,
    0 <= start ->
    windows fuel start = Some ws ->
    forall i, start <= i < n ->
      exists w, In w ws /\ fst w <= i < snd w.
Proof.
  intros Hm Ho. induction fuel as [|fuel IH]; intros start ws Hs; [discriminate|].
  cbn [split_windows]. fold n.
  destruct (Z.ltb_spec start n); [|intros _ i Hi; lia].
  pose proof (window_end_bounds dom_content max_length start Hm ltac:(fold n; lia)) as Hw.
  fold n in Hw.
  destruct (Z.ltb_spec (window_end dom_content max_length start) n) as [Hlt|Hge].
  - destruct (split_windows fuel _ _ _ _) as [ws'|] eqn:Hws; [|discriminate].
    intros [= <-] i Hi.
    destruct (Z.lt_ge_cases i (window_end dom_content max_length start)) as [Hin|Hout].
    + exists (start, window_end dom_content max_length start).
      split; [left; reflexivity | simpl; lia].
    + pose proof (window_end_reaches_midpoint start Hm Hlt).
      pose proof (Z.div_pos max_length 2 Hm ltac:(lia)).
      assert (Hnext : 0 <= next_start max_length overlap start
                              (window_end dom_content max_length start) <= i)
        by (unfold next_start; lia).
      destruct (IH _ _ (proj1 Hnext) Hws i ltac:(lia)) as (w & Hw' & Hiw).
      exists w. split; [right; exact Hw' | exact Hiw].
  - intros [= <-] i Hi.
    exists (start, window_end dom_content max_length start).
    split; [left; reflexivity | simpl; lia].
Qed.

(** Each window starts where line 259 says, counted from the window
    before. *)
Lemma windows_consecutive fuel : forall start ws (j : nat) a b a' b',
  windows fuel start = Some ws ->
  nth_error ws j = Some (a, b) ->
  nth_error ws (S j) = Some (a', b') ->
  a' = next_start max_length overlap a b /\ b < n /\
  b = window_end dom_content max_length a.
Proof.
  induction fuel as [|fuel IH]; intros start ws j a b a' b'; [discriminate|].
  cbn [split_windows]. fold n.
  destruct (Z.ltb_spec start n); [|intros [= <-]; destruct j; discriminate].
  destruct (Z.ltb_spec (window_end dom_content max_length start) n) as [Hlt|Hge].
  - destruct (split_windows fuel _ _ _ _) as [ws'|] eqn:Hws; [|discriminate].
    intros [= <-]. destruct j as [|j]; simpl.
    + intros [= <- <-] Hnext.
      destruct ws' as [|[a0 b0] ws'']; [discriminate|].
      simpl in Hnext. injection Hnext as -> ->.
      apply windows_head in Hws as [-> _]. auto.
    + intros Hj Hj'. exact (IH _ _ j a b a' b' Hws Hj Hj').
  - intros [= <-]. destruct j as [|[|j]]; simpl; discriminate.
Qed.

(** The number of chunks: [k] chunks need [k - 1] advances of at least
    [max_length // 2] characters each inside the text. *)
Lemma split_loop_count fuel :
  0 <= max_length ->
  forall start chunks r,
    (Z.of_nat (length chunks) - 1) * (max_length / 2) <= n ->
    Z.of_nat (length chunks) * (max_length / 2) <= start ->
    split_loop fuel dom_content max_length overlap start chunks = Some r ->
    (Z.of_nat (length r) - 1) * (max_length / 2) <= n.
Proof.
  intros Hm. pose proof (Z.div_pos max_length 2 Hm ltac:(lia)) as Hhalf.
  induction fuel as [|fuel IH]; intros start chunks r Hn Hs; [discriminate|].
  cbn [split_loop]. fold n.
  destruct (Z.ltb_spec start n); [|intros [= <-]; exact Hn].
  assert (Hlen : Z.of_nat (length (chunks ++
             [slice dom_content start (window_end dom_content max_length start)]))
           = Z.of_nat (length chunks) + 1)
    by (rewrite length_app; simpl; lia).
  destruct (window_end dom_content max_length start <? n).
  - apply IH.
    + rewrite Hlen. lia.
    + rewrite Hlen. unfold next_start. lia.
  - intros [= <-]. rewrite Hlen. lia.
Qed.

End WindowFacts.

(** The chunks of [split_dom_content] are the slices of its windows. *)
Lemma chunks_of_windows fuel dom_content max_length overlap :
  split_dom_content fuel dom_content max_length overlap =
  match chunk_windows fuel dom_content max_length overlap with
  | Some ws => Some (map (chunk_of (strip dom_content)) ws)
  | None => None
  end.
Proof.
  unfold split_dom_content, chunk_windows.
  destruct (negb (truthy dom_content)); [reflexivity|].
  destruct (len (strip dom_content) <=? max_length).
  - unfold chunk_of. simpl. rewrite slice_full. reflexivity.
  - rewrite split_loop_windows. reflexivity.
Qed.

Lemma windows_nonempty dom_content max_length overlap fuel :
  1 <= max_length ->
  forall start ws,
    0 <= start ->
    split_windows fuel dom_content max_length overlap start = Some ws ->
    Forall (fun w => fst w < snd w) ws.
Proof.
  intros Hm. induction fuel as [|fuel IH]; intros start ws Hs; [discriminate|].
  cbn [split_windows].
  destruct (Z.ltb_spec start (len dom_content)); [|intros [= <-]; constructor].
  pose proof (window_end_beyond_start dom_content max_length start Hm ltac:(lia)).
  destruct (window_end dom_content max_length start <? len dom_content).
  - destruct (split_windows fuel _ _ _ _) as [ws'|] eqn:Hws; [|discriminate].
    intros [= <-]. constructor; [simpl; lia|].
    eapply IH; [|exact Hws].
    pose proof (Z.div_pos max_length 2 ltac:(lia) ltac:(lia)).
    unfold next_start. lia.
  - intros [= <-]. constructor; [simpl; lia | constructor].
Qed.

(** X1: for [max_length >= 2] and any overlap, [split_dom_content] returns
    after at most [len(text) + 1] turns of its loop, [text] being the
    stripped input. *)
Theorem chunker_returns_within_length dom_content max_length overlap :
  2 <= max_length ->
  exists chunks,
    split_dom_content (S (Z.to_nat (len (strip dom_content))))
      dom_content max_length overlap = Some chunks.
Proof.
  intros Hm. unfold split_dom_content.
  destruct (negb (truthy dom_content)); [eauto|].
  destruct (len (strip dom_content) <=? max_length); [eauto|].
  apply split_loop_finishes; [exact Hm | lia].
Qed.

Lemma chunker_returns_within_length_witness :
  exists chunks,
    split_dom_content (S (Z.to_nat (len (strip "  hello world, this is text  "))))
      "  hello world, this is text  " 10 3 = Some chunks.
Proof.
  apply (chunker_returns_within_length "  hello world, this is text  " 10 3).
  lia.
Defined.

(** X2: with [max_length >= 0] and [overlap >= 0] the chunks cover the
    stripped text without a gap: the chunks are the slices [text[a:b]] of
    windows that lie inside the text, and every position of the text is
    inside one of the windows. *)
Theorem chunks_cover_text fuel dom_content max_length overlap chunks :
  0 <= max_length -> 0 <= overlap ->
  split_dom_content fuel dom_content max_length overlap = Some chunks ->
  exists ws,
    chunk_windows fuel dom_content max_length overlap = Some ws /\
    chunks = map (chunk_of (strip dom_content)) ws /\
    Forall (fun w => 0 <= fst w <= snd w /\ snd w <= len (strip dom_content)) ws /\
    forall i, 0 <= i < len (strip dom_content) ->
      exists w, In w ws /\ fst w <= i < snd w.
Proof.
  intros Hm Ho. rewrite chunks_of_windows.
  destruct (chunk_windows fuel dom_content max_length overlap) as [ws|] eqn:Hws;
    [|discriminate].
  intros [= <-]. exists ws. split; [reflexivity|]. split; [reflexivity|].
  unfold chunk_windows in Hws.
  destruct (negb (truthy dom_content)) eqn:Hempty.
  - injection Hws as <-. split; [constructor|].
    destruct dom_content; [|discriminate]. intros i Hi.
    change (len (strip EmptyString)) with 0 in Hi. lia.
  - pose proof (len_nonneg (strip dom_content)).
    destruct (len (strip dom_content) <=? max_length).
    + injection Hws as <-. split.
      * constructor; [simpl; lia | constructor].
      * intros i Hi. exists (0, len (strip dom_content)).
        split; [left; reflexivity | simpl; lia].
    + split.
      * eapply windows_inside; [exact Hm | | exact Hws]. lia.
      * eapply windows_cover; [exact Hm | exact Ho | | exact Hws]. lia.
Qed.

Lemma chunks_cover_text_witness :
  exists ws,
    chunk_windows 5 "  hello world, this is text  " 10 3 = Some ws /\
    ["hello worl"; "orld, this"; "his is tex"; "text"] =
      map (chunk_of (strip "  hello world, this is text  ")) ws /\
    Forall (fun w => 0 <= fst w <= snd w /\
                     snd w <= len (strip "  hello world, this is text  ")) ws /\
    forall i, 0 <= i < len (strip "  hello world, this is text  ") ->
      exists w, In w ws /\ fst w <= i < snd w.
Proof.
  apply (chunks_cover_text 5 "  hello world, this is text  " 10 3).
  - lia.
  - lia.
  - vm_compute. reflexivity.
Defined.

(** X3: for [max_length >= 0], [k] returned chunks mean [k - 1] advances of
    at least [max_length // 2] characters inside the stripped text:
    [(k - 1) * (max_length // 2) <= len(text)]. *)
Theorem chunk_count_bound fuel dom_content max_length overlap chunks :
  0 <= max_length ->
  split_dom_content fuel dom_content max_length overlap = Some chunks ->
  (Z.of_nat (length chunks) - 1) * (max_length / 2)
    <= len (strip dom_content).
Proof.
  intros Hm. unfold split_dom_content.
  pose proof (Z.div_pos max_length 2 Hm ltac:(lia)) as Hhalf.
  pose proof (len_nonneg (strip dom_content)) as Hn.
  destruct (negb (truthy dom_content)); [intros [= <-]; simpl; lia|].
  destruct (len (strip dom_content) <=? max_length);
    [intros [= <-]; simpl; lia|].
  apply split_loop_count; [exact Hm | simpl; lia | simpl; lia].
Qed.

Lemma chunk_count_bound_witness :
  (Z.of_nat (length ["hello worl"; "orld, this"; "his is tex"; "text"]) - 1)
    * (10 / 2) <= len (strip "  hello world, this is text  ").
Proof.
  apply (chunk_count_bound 5 "  hello world, this is text  " 10 3).
  - lia.
  - vm_compute. reflexivity.
Defined.

(** X4: for [max_length >= 0], [split_dom_content] returns the empty list
    for the empty text and for no other: whenever it returns for a text that
    is not empty, it returns at least one chunk, and for a text of white
    space only it returns (with any fuel) exactly one chunk, the empty
    one. *)
Theorem no_chunks_iff_empty_text fuel dom_content max_length overlap :
  0 <= max_length ->
  (split_dom_content fuel dom_content max_length overlap = Some [] <->
   dom_content = EmptyString) /\
  (forall chunks,
     split_dom_content fuel dom_content max_length overlap = Some chunks ->
     dom_content <> EmptyString -> chunks <> []) /\
  (dom_content <> EmptyString -> strip dom_content = EmptyString ->
   split_dom_content fuel dom_content max_length overlap
     = Some [EmptyString]).
Proof.
  intros Hm.
  assert (Honly : split_dom_content fuel dom_content max_length overlap = Some []
                  -> dom_content = EmptyString).
  { rewrite chunks_of_windows. unfold chunk_windows.
    destruct dom_content as [|c s]; [reflexivity|]. simpl negb. cbv iota.
    pose proof (len_nonneg (strip (String c s))).
    destruct (Z.leb_spec (len (strip (String c s))) max_length); [discriminate|].
    destruct fuel as [|fuel]; [discriminate|]. cbn [split_windows].
    destruct (Z.ltb_spec 0 (len (strip (String c s)))); [|lia].
    destruct (_ <? _); [|discriminate].
    destruct (split_windows fuel _ _ _ _); discriminate. }
  split; [split; [exact Honly | intros ->; reflexivity]|]. split.
  - intros chunks Hrun Hne ->. exact (Hne (Honly Hrun)).
  - intros Hne Hblank. unfold split_dom_content.
    destruct dom_content as [|c s]; [congruence|]. simpl negb. cbv iota.
    rewrite Hblank. change (len EmptyString) with 0.
    destruct (Z.leb_spec 0 max_length); [reflexivity | lia].
Qed.

Lemma no_chunks_iff_empty_text_witness :
  (split_dom_content 0 "   " 3000 500 = Some [] <-> "   " = EmptyString) /\
  (forall chunks,
     split_dom_content 0 "   " 3000 500 = Some chunks ->
     "   " <> EmptyString -> chunks <> []) /\
  ("   " <> EmptyString -> strip "   " = EmptyString ->
   split_dom_content 0 "   " 3000 500 = Some [EmptyString]).
Proof. apply (no_chunks_iff_empty_text 0 "   " 3000 500). lia. Defined.

(** X5: for [max_length >= 1] and a text that is not blank, no returned
    chunk is empty. *)
Theorem chunks_not_empty fuel dom_content max_length overlap chunks :
  1 <= max_length ->
  strip dom_content <> EmptyString ->
  split_dom_content fuel dom_content max_length overlap = Some chunks ->
  Forall (fun c => 1 <= len c) chunks.
Proof.
  intros Hm Hblank. rewrite chunks_of_windows. unfold chunk_windows.
  assert (Hpos : 1 <= len (strip dom_content)).
  { destruct (strip dom_content); [congruence|]. unfold len. simpl. lia. }
  destruct (negb (truthy dom_content)); [intros [= <-]; constructor|].
  destruct (len (strip dom_content) <=? max_length).
  - intros [= <-]. constructor; [|constructor].
    unfold chunk_of. simpl. rewrite slice_full. exact Hpos.
  - destruct (split_windows _ _ _ _ _) as [ws|] eqn:Hws; [|discriminate].
    intros [= <-].
    assert (Hm0 : 0 <= max_length) by lia.
    pose proof (windows_nonempty _ _ _ _ Hm 0 ws (Z.le_refl 0) Hws) as Hne.
    pose proof (windows_inside _ _ _ _ Hm0 0 ws (Z.le_refl 0) Hws) as Hin.
    apply Forall_map. rewrite Forall_forall in *.
    intros w Hw. specialize (Hne w Hw). specialize (Hin w Hw).
    unfold chunk_of. rewrite len_slice_inside; lia.
Qed.

Lemma chunks_not_empty_witness :
  Forall (fun c => 1 <= len c)
    ["hello worl"; "orld, this"; "his is tex"; "text"].
Proof.
  apply (chunks_not_empty 5 "  hello world, this is text  " 10 3).
  - lia.
  - vm_compute. congruence.
  - vm_compute. reflexivity.
Defined.

(** X6: for [max_length >= 0] and [overlap >= 0], a chunk starts inside or
    right at the end of the chunk before, at most [overlap] characters before
    that end, and at least [max_length // 2] characters after that chunk's
    start. *)
Theorem consecutive_chunks_overlap fuel dom_content max_length overlap
    ws (j : nat) a b a' b' :
  0 <= max_length -> 0 <= overlap ->
  chunk_windows fuel dom_content max_length overlap = Some ws ->
  nth_error ws j = Some (a, b) ->
  nth_error ws (S j) = Some (a', b') ->
  b - overlap <= a' <= b /\ a + max_length / 2 <= a'.
Proof.
  intros Hm Ho. unfold chunk_windows.
  destruct (negb (truthy dom_content));
    [intros [= <-]; destruct j; discriminate|].
  destruct (len (strip dom_content) <=? max_length);
    [intros [= <-]; destruct j as [|[|j]]; discriminate|].
  intros Hws Hj Hj'.
  destruct (windows_consecutive _ _ _ _ _ _ _ _ _ _ _ Hws Hj Hj')
    as (-> & Hlt & ->).
  pose proof (window_end_reaches_midpoint _ _ a Hm Hlt).
  unfold next_start. lia.
Qed.

Lemma consecutive_chunks_overlap_witness :
  10 - 3 <= 7 <= 10 /\ 0 + 10 / 2 <= 7.
Proof.
  apply (consecutive_chunks_overlap 5 "  hello world, this is text  " 10 3
           [(0, 10); (7, 17); (14, 24); (21, 25)] 0 0 10 7 17).
  - lia.
  - lia.
  - vm_compute. reflexivity.
  - reflexivity.
  - reflexivity.
Defined.

(* ===================================================================== *)
(** * More about the crawl scheduler *)
(* ===================================================================== *)

Section CrawlerMore.
Context `{E : Externals}.
Variable same_domain : bool.
Variable max_pages : Z.
Variable domain : string.

Local Abbreviation body := (loop_body same_domain domain).
Local Abbreviation test := (loop_test max_pages).
Local Abbreviation reaches := (reachable same_domain max_pages domain).

(** A turn of the loop in full: the head of the queue is dropped because it
    is visited or off the domain, or it is fetched. *)
Lemma loop_body_outcome st current q :
  queue st = current :: q ->
  (body st = State q (visited st) (results st) (fetched st) /\
   ((current ∈ visited st) \/
    (same_domain = true /\ urlparse_netloc current <> domain))) \/
  ((current ∉ visited st) /\
   (same_domain = true -> urlparse_netloc current = domain) /\
   body st =
     State (queue_after_fetch same_domain domain current
              (visited st ∪ {[current]}) q)
           (visited st ∪ {[current]})
           (match stored_text current with
            | Some cleaned => <[current := cleaned]> (results st)
            | None => results st
            end)
           (fetched st ++ [current])).
Proof.
  intros Hq. unfold loop_body. rewrite Hq.
  case_bool_decide as Hvis; [left; auto|].
  destruct same_domain eqn:Hsd; simpl.
  - case_bool_decide as Hdom; simpl.
    + right. split; [exact Hvis|]. split; [auto|].
      unfold queue_after_fetch, stored_text.
      destruct (negb (truthy (scrape_page current)) || _); [reflexivity|].
      destruct (truthy _ && _); reflexivity.
    + left. auto.
  - right. split; [exact Hvis|]. split; [discriminate|].
    unfold queue_after_fetch, stored_text.
    destruct (negb (truthy (scrape_page current)) || _); [reflexivity|].
    destruct (truthy _ && _); reflexivity.
Qed.

(** The mapping holds, for the visited URLs and for no other, what their
    fetch stored. *)
Lemma results_invariant start st :
  reaches (initial_state start) st ->
  forall k,
    results st !! k = if bool_decide (k ∈ visited st) then stored_text k else None.
Proof.
  intros Hr. induction Hr as [|st Hr IH Ht]; intros k.
  - simpl. rewrite lookup_empty.
    rewrite bool_decide_eq_false_2 by apply not_elem_of_empty. reflexivity.
  - unfold loop_test in Ht.
    destruct (queue st) as [|current q] eqn:Hq; [discriminate|].
    destruct (loop_body_outcome st current q Hq) as [[-> _] | (Hnew & _ & ->)];
      simpl; [apply IH|].
    destruct (decide (k = current)) as [->|Hne].
    + rewrite bool_decide_eq_true_2
        by (apply elem_of_union; right; apply elem_of_singleton; reflexivity).
      destruct (stored_text current) as [cleaned|] eqn:Hst.
      * apply lookup_insert_eq.
      * rewrite IH, bool_decide_eq_false_2 by exact Hnew. reflexivity.
    + assert (Hk : results st !! k =
                   if bool_decide (k ∈ visited st ∪ {[current]})
                   then stored_text k else None).
      { rewrite IH.
        rewrite (bool_decide_ext (k ∈ visited st ∪ {[current]}) (k ∈ visited st));
          [reflexivity|].
        rewrite elem_of_union, elem_of_singleton. tauto. }
      destruct (stored_text current); [|exact Hk].
      rewrite lookup_insert_ne by congruence. exact Hk.
Qed.

(** The budget without a sign condition: the visited set never has more
    than [max(0, max_pages)] elements. *)
Lemma reachable_budget_any start st :
  reaches (initial_state start) st ->
  Z.of_nat (size (visited st)) <= Z.max 0 max_pages.
Proof.
  intros Hr. induction Hr as [|st Hr IH Ht].
  - unfold initial_state. cbn [visited]. rewrite size_empty. lia.
  - pose proof (budget_turn same_domain max_pages domain st Ht). lia.
Qed.

(** Whatever is in the queue was the start URL or went through the
    filter; so was whatever has been fetched. *)
Lemma enqueue_links_filtered current (vis : gset string) hrefs : forall q u,
  u ∈ enqueue_links same_domain domain current vis hrefs q ->
  (u ∈ q) \/
  (is_valid_url urlparse_path u = true /\ urlparse_netloc u = domain /\
   is_normalized u = true).
Proof.
  unfold enqueue_links.
  induction hrefs as [|href hrefs IH]; intros q u; simpl; [auto|].
  intros Hu. apply IH in Hu as [Hu | Hu]; [|auto].
  unfold consider_link in Hu.
  destruct (bool_decide _); simpl in Hu; [|auto].
  destruct (is_valid_url _ _) eqn:Hvalid; [|auto].
  destruct same_domain; simpl in Hu; [|auto].
  case_bool_decide as Hdom; [|auto].
  apply elem_of_app in Hu as [Hu | Hu]; [auto|].
  apply list_elem_of_singleton in Hu as ->.
  right. split; [exact Hvalid|]. split; [exact Hdom|].
  apply normalize_is_normalized.
Qed.

Lemma filtered_invariant start st :
  reaches (initial_state start) st ->
  forall u, (u ∈ queue st) \/ (u ∈ fetched st) ->
    u = start \/
    (is_valid_url urlparse_path u = true /\ urlparse_netloc u = domain /\
     is_normalized u = true).
Proof.
  intros Hr. induction Hr as [|st Hr IH Ht]; intros u.
  - intros [Hu | Hu]; [|inversion Hu].
    apply list_elem_of_singleton in Hu. auto.
  - unfold loop_test in Ht.
    destruct (queue st) as [|current q] eqn:Hq; [discriminate|].
    destruct (loop_body_outcome st current q Hq) as [[-> _] | (_ & _ & ->)]; simpl.
    + intros [Hu | Hu]; apply IH; [left; right; exact Hu | right; exact Hu].
    + intros [Hu | Hu].
      * unfold queue_after_fetch in Hu.
        destruct (negb (truthy (scrape_page current)) || _).
        -- apply IH. left. right. exact Hu.
        -- apply enqueue_links_filtered in Hu as [Hu | Hu]; [|auto].
           apply IH. left. right. exact Hu.
      * apply elem_of_app in Hu as [Hu | Hu].
        -- apply IH. right. exact Hu.
        -- apply list_elem_of_singleton in Hu as ->. apply IH. left. left.
Qed.

(** With same-domain scoping on, only URLs of the domain are fetched. *)
Lemma fetched_on_domain start st :
  same_domain = true ->
  reaches (initial_state start) st ->
  forall u, u ∈ fetched st -> urlparse_netloc u = domain.
Proof.
  intros Hsd Hr. induction Hr as [|st Hr IH Ht]; intros u.
  - intros Hu. inversion Hu.
  - unfold loop_test in Ht.
    destruct (queue st) as [|current q] eqn:Hq; [discriminate|].
    destruct (loop_body_outcome st current q Hq) as [[-> _] | (_ & Hdom & ->)];
      simpl; [apply IH|].
    intros Hu. apply elem_of_app in Hu as [Hu | Hu]; [apply IH, Hu|].
    apply list_elem_of_singleton in Hu as ->. apply Hdom, Hsd.
Qed.

End CrawlerMore.

Lemma stored_text_spec `{E : Externals} url v :
  stored_text url = Some v ->
  v = clean_body_content (extract_body_content (scrape_page url)) /\
  200 < len v /\ 500 <= len (scrape_page url).
Proof.
  unfold stored_text.
  destruct (negb (truthy (scrape_page url))) ; simpl; [discriminate|].
  destruct (Z.ltb_spec (len (scrape_page url)) 500); [discriminate|].
  destruct (truthy _); simpl; [|discriminate].
  destruct (Z.gtb_spec (len (clean_body_content
                               (extract_body_content (scrape_page url)))) 200);
    [|discriminate].
  intros [= <-]. repeat split; lia.
Qed.

Lemma crawl_final_reachable `{E : Externals} fuel start_url max_pages same_domain st :
  crawl fuel start_url max_pages same_domain = Some (Some st) ->
  reachable same_domain max_pages (urlparse_netloc (rstrip is_slash start_url))
    (initial_state (rstrip is_slash start_url)) st.
Proof.
  unfold crawl. destruct get_driver_ok; [|discriminate].
  destruct (crawl_loop _ _ _ _ _) as [st'|] eqn:Hrun; [|discriminate].
  intros [= <-].
  apply crawl_loop_result with (st0 := initial_state (rstrip is_slash start_url))
    in Hrun as [Hreach _]; [exact Hreach | constructor].
Qed.

(** X7: at every point of a run the result mapping holds exactly the
    fetched URLs whose page had enough content: [results[k] = v] if and only
    if [k] has been fetched and its fetch stored [v]; [v] is then the cleaned
    text of that page, longer than 200 characters, and the page source has at
    least 500 characters. *)
Theorem results_are_fetched_pages `{E : Externals}
    same_domain max_pages domain start st k v :
  reachable same_domain max_pages domain (initial_state start) st ->
  (results st !! k = Some v <-> (k ∈ fetched st) /\ stored_text k = Some v) /\
  (results st !! k = Some v ->
   v = clean_body_content (extract_body_content (scrape_page k)) /\
   200 < len v /\ 500 <= len (scrape_page k)).
Proof.
  intros Hr.
  pose proof (results_invariant same_domain max_pages domain start st Hr k) as Hk.
  destruct (fetched_invariant same_domain max_pages domain start st Hr)
    as [_ Hvis].
  assert (Hiff : results st !! k = Some v <->
                 (k ∈ fetched st) /\ stored_text k = Some v).
  { assert (Hmem : k ∈ visited st <-> k ∈ fetched st)
      by (rewrite Hvis; apply elem_of_list_to_set).
    rewrite Hk. case_bool_decide as Hin.
    - apply Hmem in Hin. tauto.
    - split; [discriminate|]. intros [Hf _]. exfalso.
      apply Hin, Hmem, Hf. }
  split; [exact Hiff|].
  intros Hres. apply Hiff in Hres as [_ Hst]. apply stored_text_spec, Hst.
Qed.

Lemma results_are_fetched_pages_witness :
  (results after_page_b !! "http://x.com/b" =
     Some (clean_body_content (extract_body_content page_b)) <->
   ("http://x.com/b" ∈ fetched after_page_b) /\
   stored_text "http://x.com/b" =
     Some (clean_body_content (extract_body_content page_b))) /\
  (results after_page_b !! "http://x.com/b" =
     Some (clean_body_content (extract_body_content page_b)) ->
   clean_body_content (extract_body_content page_b) =
     clean_body_content (extract_body_content (scrape_page "http://x.com/b")) /\
   200 < len (clean_body_content (extract_body_content page_b)) /\
   500 <= len (scrape_page "http://x.com/b")).
Proof.
  apply (results_are_fetched_pages (E := site) true 3 "x.com" "http://x.com").
  apply reach_turn; [|reflexivity].
  apply reach_turn; [apply reach_init | reflexivity].
Defined.

(** X8: a turn of the loop never removes or overwrites anything: the
    visited set and the result mapping of the state before are contained in
    those after, and the list of fetched URLs only grows at its end. *)
Theorem turn_only_adds `{E : Externals}
    same_domain max_pages domain start st :
  reachable same_domain max_pages domain (initial_state start) st ->
  loop_test max_pages st = true ->
  visited st ⊆ visited (loop_body same_domain domain st) /\
  results st ⊆ results (loop_body same_domain domain st) /\
  exists more, fetched (loop_body same_domain domain st) = fetched st ++ more.
Proof.
  intros Hr Ht. unfold loop_test in Ht.
  destruct (queue st) as [|current q] eqn:Hq; [discriminate|].
  destruct (loop_body_outcome same_domain domain st current q Hq)
    as [[-> _] | (Hnew & _ & ->)]; simpl.
  - split; [reflexivity|]. split; [reflexivity|].
    exists []. rewrite app_nil_r. reflexivity.
  - split; [apply union_subseteq_l|]. split; [|eauto].
    destruct (stored_text current); [|reflexivity].
    apply insert_subseteq.
    rewrite (results_invariant same_domain max_pages domain start st Hr).
    rewrite bool_decide_eq_false_2 by exact Hnew. reflexivity.
Qed.

Lemma turn_only_adds_witness :
  visited after_home ⊆ visited (loop_body true "x.com" after_home) /\
  results after_home ⊆ results (loop_body true "x.com" after_home) /\
  exists more, fetched (loop_body true "x.com" after_home)
               = fetched after_home ++ more.
Proof.
  apply (turn_only_adds (E := site) true 3 "x.com" "http://x.com").
  - apply reach_turn; [apply reach_init | reflexivity].
  - reflexivity.
Defined.

(** X9: the mapping that [scrape_website_recursive] returns never has more
    than [max(0, max_pages)] entries. *)
Theorem result_size_within_budget `{E : Externals}
    fuel start_url max_pages same_domain r :
  scrape_website_recursive fuel start_url max_pages same_domain = Some r ->
  Z.of_nat (size r) <= Z.max 0 max_pages.
Proof.
  unfold scrape_website_recursive.
  destruct (crawl fuel start_url max_pages same_domain) as [[st|]|] eqn:Hc;
    [| |discriminate].
  - intros [= <-]. apply crawl_final_reachable in Hc.
    pose proof (reachable_budget_any _ _ _ _ _ Hc) as Hbudget.
    assert (Hsub : dom (results st) ⊆ visited st).
    { intros k Hk. apply elem_of_dom in Hk as [v Hv].
      rewrite (results_invariant _ _ _ _ _ Hc) in Hv.
      case_bool_decide; [assumption | discriminate]. }
    apply subseteq_size in Hsub. rewrite size_dom in Hsub. lia.
  - intros [= <-]. rewrite map_size_empty. lia.
Qed.

Lemma result_size_within_budget_witness :
  exists r,
    scrape_website_recursive 5 "http://x.com/" 2 true = Some r /\
    Z.of_nat (size r) <= Z.max 0 2.
Proof.
  eexists. split; [vm_compute; reflexivity|].
  apply (result_size_within_budget (E := site) 5 "http://x.com/" 2 true).
  vm_compute. reflexivity.
Defined.

(** X10: with same-domain scoping on, every URL that the crawl hands to
    [scrape_page] has the network location of the (stripped) start URL. *)
Theorem only_start_domain_fetched `{E : Externals}
    fuel start_url max_pages st u :
  crawl fuel start_url max_pages true = Some (Some st) ->
  u ∈ fetched st ->
  urlparse_netloc u = urlparse_netloc (rstrip is_slash start_url).
Proof.
  intros Hc Hu. apply crawl_final_reachable in Hc.
  exact (fetched_on_domain true max_pages _ _ st eq_refl Hc u Hu).
Qed.

Lemma only_start_domain_fetched_witness :
  urlparse_netloc "http://x.com/b" = urlparse_netloc (rstrip is_slash "http://x.com/").
Proof.
  apply (only_start_domain_fetched (E := site) 5 "http://x.com/" 2 after_page_b).
  - vm_compute. reflexivity.
  - apply list_elem_of_In. vm_compute. auto.
Defined.

(** X11: the crawl never fetches a URL that the filter refuses, the start
    URL apart, which is fetched unfiltered: every fetched URL is the stripped
    start URL or passed [is_valid_url] and is normalized. *)
Theorem only_filtered_urls_fetched `{E : Externals}
    fuel start_url max_pages same_domain st u :
  crawl fuel start_url max_pages same_domain = Some (Some st) ->
  u ∈ fetched st ->
  u = rstrip is_slash start_url \/
  (is_valid_url urlparse_path u = true /\ is_normalized u = true).
Proof.
  intros Hc Hu. apply crawl_final_reachable in Hc.
  destruct (filtered_invariant same_domain max_pages _ _ st Hc u (or_intror Hu))
    as [-> | (Hvalid & _ & Hnorm)]; auto.
Qed.

Lemma only_filtered_urls_fetched_witness :
  "http://x.com/b" = rstrip is_slash "http://x.com/" \/
  (is_valid_url urlparse_path "http://x.com/b" = true /\
   is_normalized "http://x.com/b" = true).
Proof.
  apply (only_filtered_urls_fetched (E := site) 5 "http://x.com/" 2 true after_page_b).
  - vm_compute. reflexivity.
  - apply list_elem_of_In. vm_compute. auto.
Defined.

(* ===================================================================== *)
(** * More about the text cleaner *)
(* ===================================================================== *)

Lemma every_char_lstrip p q s :
  every_char p s = true -> every_char p (lstrip q s) = true.
Proof.
  induction s as [|c s IH]; [reflexivity|]. intros H. simpl.
  destruct (q c); [|exact H].
  simpl in H. apply andb_prop in H as [_ H]. apply IH, H.
Qed.

Lemma every_char_rstrip p q s :
  every_char p s = true -> every_char p (rstrip q s) = true.
Proof.
  induction s as [|c s IH]; [reflexivity|]. intros H.
  simpl in H. apply andb_prop in H as [Hc Hs]. specialize (IH Hs).
  rewrite rstrip_cons. destruct (rstrip q s) as [|d r].
  - destruct (q c); simpl; [reflexivity | rewrite Hc; reflexivity].
  - change (every_char p (String c (String d r)))
      with (p c && every_char p (String d r)).
    rewrite Hc, IH. reflexivity.
Qed.

(** No line of [splitlines] holds a line boundary. *)
Lemma splitlines_go_no_linebreak s : forall after_cr,
  Forall (fun l => no_linebreak l = true) (splitlines_go after_cr s).
Proof.
  induction s as [|c s IH]; intros after_cr; simpl; [constructor|].
  destruct (after_cr && Ascii.eqb c nl); [apply IH|].
  destruct (is_linebreak c) eqn:Hc.
  - constructor; [reflexivity | apply IH].
  - specialize (IH false).
    destruct (splitlines_go false s) as [|l ls]; simpl.
    + constructor; [|constructor]. unfold no_linebreak. simpl.
      rewrite Hc. reflexivity.
    + inversion IH as [|? ? Hl Hls]; subst. constructor; [|exact Hls].
      unfold no_linebreak in *. simpl. rewrite Hc. exact Hl.
Qed.

Lemma rstrip_fixed p s : last_kept p s -> rstrip p s = s.
Proof.
  unfold last_kept. induction s as [|c s IH]; [reflexivity|]. intros H.
  rewrite rstrip_cons. destruct s as [|d s].
  - simpl. rewrite (H c eq_refl). reflexivity.
  - rewrite IH; [reflexivity|]. intros a Ha. apply H. exact Ha.
Qed.

(** The shape of the lines that lines 87-88 keep. *)
Lemma kept_lines_shape text :
  Forall (fun l => no_linebreak l = true /\ l <> EmptyString /\ 3 < len l /\
                   strip l = l /\ head_kept is_space l /\ last_kept is_space l)
         (kept_lines text).
Proof.
  unfold kept_lines, splitlines.
  pose proof (splitlines_go_no_linebreak text false) as Hno.
  induction Hno as [|x xs Hx Hxs IH]; [constructor|].
  rewrite map_cons, filter_cons.
  destruct (decide _) as [Hkeep|]; [|exact IH].
  constructor; [|exact IH].
  apply andb_prop in Hkeep as [Hne Hlen].
  split; [apply every_char_rstrip, every_char_lstrip, Hx|].
  split; [intros Heq; rewrite Heq in Hne; discriminate|].
  split; [apply Z.gtb_lt in Hlen; lia|].
  split; [apply strip_idempotent|].
  split; [apply rstrip_head, lstrip_head|].
  intros c Hc. exact (rstrip_last _ _ _ Hc).
Qed.

Lemma splitlines_go_line x rest :
  no_linebreak x = true ->
  splitlines_go false (x +:+ String nl rest) = x :: splitlines_go false rest.
Proof.
  unfold no_linebreak. induction x as [|c x IH]; intros H.
  - reflexivity.
  - simpl in H. apply andb_prop in H as [Hc Hx].
    apply negb_true_iff in Hc.
    rewrite append_cons. simpl. rewrite Hc, IH by exact Hx. reflexivity.
Qed.

Lemma splitlines_go_single x :
  no_linebreak x = true -> x <> EmptyString ->
  splitlines_go false x = [x].
Proof.
  unfold no_linebreak. induction x as [|c x IH]; intros H Hne; [congruence|].
  simpl in H. apply andb_prop in H as [Hc Hx]. apply negb_true_iff in Hc.
  simpl. rewrite Hc. destruct x as [|d x]; [reflexivity|].
  rewrite IH by (auto; discriminate). reflexivity.
Qed.

(** [splitlines] gives back the lines that were joined by newlines. *)
Lemma splitlines_join lines :
  Forall (fun l => no_linebreak l = true /\ l <> EmptyString) lines ->
  splitlines (join (String nl EmptyString) lines) = lines.
Proof.
  unfold splitlines. intros Hall.
  induction Hall as [|x xs [Hx Hne] Hxs IH]; [reflexivity|].
  destruct xs as [|y ys].
  - simpl. apply splitlines_go_single; assumption.
  - rewrite join_cons2, append_cons, append_empty.
    rewrite splitlines_go_line by exact Hx. rewrite IH. reflexivity.
Qed.

Lemma map_strip_fixed lines :
  Forall (fun l => strip l = l) lines -> map strip lines = lines.
Proof.
  intros Hall. induction Hall as [|x xs Hx Hxs IH]; [reflexivity|].
  rewrite map_cons, Hx, IH. reflexivity.
Qed.

Lemma filter_kept_fixed lines :
  Forall (fun l => l <> EmptyString /\ 3 < len l) lines ->
  filter (fun l => truthy l && (len l >? 3) = true) lines = lines.
Proof.
  intros Hall. induction Hall as [|x xs [Hne Hlen] Hxs IH]; [reflexivity|].
  rewrite filter_cons, IH.
  destruct (decide _) as [|Hno]; [reflexivity|].
  exfalso. apply Hno. apply andb_true_intro. split.
  - destruct x; [congruence | reflexivity].
  - apply Z.gtb_lt. lia.
Qed.

(** The lines kept from cleaned text are its lines. *)
Lemma kept_lines_joined text :
  kept_lines (joined_lines text) = kept_lines text.
Proof.
  pose proof (kept_lines_shape text) as Hshape.
  unfold joined_lines. unfold kept_lines at 1.
  rewrite splitlines_join
    by (eapply Forall_impl; [exact Hshape|]; intros l (H1 & H2 & _); auto).
  rewrite map_strip_fixed
    by (eapply Forall_impl; [exact Hshape|]; intros l (_ & _ & _ & H & _); auto).
  apply filter_kept_fixed.
  eapply Forall_impl; [exact Hshape|]. intros l (_ & H2 & H3 & _). auto.
Qed.

(** X12: cleaning is idempotent: cleaned text that is cleaned again stays
    as it is. *)
Theorem clean_text_idempotent text :
  clean_text (clean_text text) = clean_text text.
Proof.
  destruct (clean_text_lines text) as [Hfix _].
  assert (Hclean : clean_text text = joined_lines text) by exact Hfix.
  rewrite Hclean.
  destruct (clean_text_lines (joined_lines text)) as [Hfix' _].
  unfold clean_text at 1. rewrite Hfix'.
  unfold joined_lines at 1. rewrite kept_lines_joined. reflexivity.
Qed.

Lemma last_char_append a b :
  b <> EmptyString -> last_char (a +:+ b) = last_char b.
Proof.
  intros Hb. induction a as [|c a IH]; [reflexivity|].
  rewrite append_cons. simpl.
  destruct (a +:+ b) eqn:Hab; [|exact IH].
  destruct a; [rewrite append_empty in Hab; congruence | discriminate].
Qed.

Lemma join_not_empty x rest :
  x <> EmptyString -> join (String nl EmptyString) (x :: rest) <> EmptyString.
Proof.
  intros Hx. destruct (join_head x rest Hx) as (c & t & _ & t' & ->).
  discriminate.
Qed.

Lemma join_last_kept p lines :
  Forall (fun l => l <> EmptyString /\ last_kept p l) lines ->
  last_kept p (join (String nl EmptyString) lines).
Proof.
  intros Hall. induction Hall as [|x xs [Hne Hx] Hxs IH]; [intros c; discriminate|].
  destruct xs as [|y ys]; [exact Hx|].
  rewrite join_cons2. intros c.
  rewrite last_char_append by discriminate.
  inversion Hxs as [|? ? [Hy _] _]; subst.
  rewrite append_cons, append_empty.
  pose proof (join_not_empty y ys Hy) as Hj.
  remember (join (String nl EmptyString) (y :: ys)) as J eqn:HJ.
  destruct J as [|a s]; [congruence|].
  exact (IH c).
Qed.

(** X13: cleaned text has no white space at its ends:
    [clean_text(text).strip() == clean_text(text)]. *)
Theorem clean_text_stripped text : strip (clean_text text) = clean_text text.
Proof.
  destruct (clean_text_lines text) as [Hfix _].
  assert (Hclean : clean_text text = joined_lines text) by exact Hfix.
  rewrite Hclean. unfold joined_lines, strip.
  pose proof (kept_lines_shape text) as Hshape.
  destruct (kept_lines text) as [|x rest]; [reflexivity|].
  assert (Hhead : head_kept is_space
                    (join (String nl EmptyString) (x :: rest))).
  { inversion Hshape as [|? ? (_ & Hne & _ & _ & Hh & _) _]; subst.
    destruct (join_head x rest Hne) as (c & t & -> & t' & ->). exact Hh. }
  rewrite lstrip_fixed by exact Hhead.
  apply rstrip_fixed, join_last_kept.
  eapply Forall_impl; [exact Hshape|].
  intros l (_ & H2 & _ & _ & _ & H6). auto.
Qed.

Lemma len_cons c s : len (String c s) = len s + 1.
Proof. unfold len. simpl. lia. Qed.

Lemma len_append a b : len (a +:+ b) = len a + len b.
Proof.
  induction a as [|c a IH];
    [rewrite append_empty; change (len EmptyString) with 0; lia|].
  rewrite append_cons, !len_cons, IH. lia.
Qed.

Lemma len_lstrip_le p s : len (lstrip p s) <= len s.
Proof.
  induction s as [|c s IH]; [simpl; lia|].
  simpl lstrip. destruct (p c); [rewrite len_cons; lia | lia].
Qed.

Lemma len_rstrip_le p s : len (rstrip p s) <= len s.
Proof.
  induction s as [|c s IH]; [simpl; lia|].
  rewrite rstrip_cons, len_cons. pose proof (len_nonneg s).
  destruct (rstrip p s) as [|d r].
  - destruct (p c); [change (len EmptyString) with 0; lia|].
    change (len (String c EmptyString)) with 1. lia.
  - rewrite len_cons. lia.
Qed.

Lemma len_strip_le s : len (strip s) <= len s.
Proof.
  unfold strip. pose proof (len_rstrip_le is_space (lstrip is_space s)).
  pose proof (len_lstrip_le is_space s). lia.
Qed.

Lemma weight_nonneg ls : 0 <= weight ls.
Proof.
  induction ls as [|l ls IH]; simpl; [lia|]. pose proof (len_nonneg l). lia.
Qed.

(** [splitlines] drops at least one character for every line but the
    last. *)
Lemma weight_splitlines s : forall after_cr,
  weight (splitlines_go after_cr s) <= len s + 1.
Proof.
  induction s as [|c s IH]; intros after_cr;
    [simpl; change (len EmptyString) with 0; lia|].
  rewrite len_cons. simpl splitlines_go.
  destruct (after_cr && Ascii.eqb c nl); [specialize (IH false); lia|].
  destruct (is_linebreak c).
  - specialize (IH (Ascii.eqb c cr)). simpl weight.
    change (len EmptyString) with 0. lia.
  - specialize (IH false). pose proof (len_nonneg s).
    destruct (splitlines_go false s) as [|l ls]; simpl cons_char; simpl weight.
    + change (len (String c EmptyString)) with 1. lia.
    + simpl weight in IH. rewrite len_cons. lia.
Qed.

Lemma weight_kept ls :
  weight (filter (fun l => truthy l && (len l >? 3) = true) (map strip ls))
    <= weight ls.
Proof.
  induction ls as [|l ls IH]; [simpl; lia|].
  rewrite map_cons, filter_cons. simpl weight.
  pose proof (len_strip_le l). pose proof (len_nonneg l).
  destruct (decide _); simpl weight; lia.
Qed.

Lemma len_join x rest :
  len (join (String nl EmptyString) (x :: rest)) = weight (x :: rest) - 1.
Proof.
  revert x. induction rest as [|y rest IH]; intros x.
  - simpl. lia.
  - rewrite join_cons2, !len_append, IH. simpl weight.
    change (len (String nl EmptyString)) with 1. lia.
Qed.

(** X14: cleaning never makes a text longer:
    [len(clean_text(text)) <= len(text)]. *)
Theorem clean_text_not_longer text : len (clean_text text) <= len text.
Proof.
  destruct (clean_text_lines text) as [Hfix _].
  assert (Hclean : clean_text text = joined_lines text) by exact Hfix.
  rewrite Hclean. unfold joined_lines.
  pose proof (weight_kept (splitlines text)) as Hkept.
  pose proof (weight_splitlines text false) as Hsplit.
  fold (splitlines text) in Hsplit. fold (kept_lines text) in Hkept.
  destruct (kept_lines text) as [|x rest].
  - simpl. apply len_nonneg.
  - rewrite len_join. lia.
Qed.

(* ===================================================================== *)
(** * More about the URL filter *)
(* ===================================================================== *)

Lemma startswith_spec p s :
  startswith p s = true <-> exists rest, s = p +:+ rest.
Proof.
  revert s. induction p as [|a p IH]; intros s; simpl.
  - split; [intros _; exists s; reflexivity | reflexivity].
  - destruct s as [|b s].
    + split; [discriminate | intros [rest H]; discriminate].
    + rewrite andb_true_iff, IH, Ascii.eqb_eq. split.
      * intros [-> [rest ->]]. exists rest. reflexivity.
      * intros [rest H]. rewrite append_cons in H. injection H as <- ->. eauto.
Qed.

Lemma contains_spec sub s :
  contains sub s = true <-> exists pre post, s = pre +:+ sub +:+ post.
Proof.
  induction s as [|c s IH]; simpl.
  - rewrite orb_false_r, startswith_spec. split.
    + intros [rest H]. exists EmptyString, rest. exact H.
    + intros (pre & post & H). destruct pre; [|discriminate].
      rewrite append_empty in H. eauto.
  - rewrite orb_true_iff, startswith_spec, IH. split.
    + intros [[rest H] | (pre & post & ->)].
      * exists EmptyString, rest. exact H.
      * exists (String c pre), post. reflexivity.
    + intros (pre & post & H). destruct pre as [|a pre].
      * left. rewrite append_empty in H. eauto.
      * right. rewrite append_cons in H. injection H as _ ->. eauto.
Qed.

Lemma skip_paths_spec path :
  existsb (fun w => contains w (lower path)) skip_paths = true <->
  exists w pre post, In w skip_paths /\ lower path = pre +:+ w +:+ post.
Proof.
  rewrite existsb_exists. split.
  - intros (w & Hw & Hc). apply contains_spec in Hc as (pre & post & H). eauto.
  - intros (w & pre & post & Hw & H). exists w. split; [exact Hw|].
    apply contains_spec. eauto.
Qed.

(** X15: what [is_valid_url] accepts: exactly the URLs that begin with
    [http], that the extension test does not refuse, and whose path, in lower
    case, contains none of the six words of [skip_paths] anywhere. *)
Theorem is_valid_url_iff (urlparse_path : string -> string) (url : string) :
  is_valid_url urlparse_path url = true <->
  (exists rest, url = "http" +:+ rest) /\
  rejected_by_extension url = false /\
  (forall w pre post,
     In w skip_paths -> lower (urlparse_path url) <> pre +:+ w +:+ post).
Proof.
  unfold is_valid_url.
  destruct (startswith "http" url) eqn:Hhttp.
  - assert (Hrest : exists rest, url = "http" +:+ rest)
      by (apply startswith_spec, Hhttp).
    assert (Htruthy : truthy url = true)
      by (destruct Hrest as [rest ->]; reflexivity).
    rewrite Htruthy. change (negb true) with false. cbv iota.
    destruct (rejected_by_extension url); cbv iota.
    + split; [discriminate | intros (_ & H & _); discriminate].
    + destruct (existsb (fun w => contains w (lower (urlparse_path url)))
                  skip_paths) eqn:Hskip; cbv iota.
      * split; [discriminate|]. intros (_ & _ & Hno). exfalso.
        apply skip_paths_spec in Hskip as (w & pre & post & Hw & H).
        exact (Hno w pre post Hw H).
      * split; [|reflexivity]. intros _.
        split; [exact Hrest|]. split; [reflexivity|].
        intros w pre post Hw H.
        assert (Hyes : existsb (fun w => contains w (lower (urlparse_path url)))
                         skip_paths = true)
          by (apply skip_paths_spec; eauto).
        rewrite Hyes in Hskip. discriminate.
  - assert (Hno : ~ exists rest, url = "http" +:+ rest).
    { intros H. apply startswith_spec in H. rewrite H in Hhttp. discriminate. }
    destruct (negb (truthy url)); simpl;
      (split; [discriminate | intros [H _]; contradiction]).
Qed.

(** X16: a URL whose path contains one of the words of [skip_paths] in
    any mix of upper and lower case, also inside a longer word, is
    refused. *)
Theorem skip_word_in_any_case_refused
    (urlparse_path : string -> string) (url pre w post : string) :
  urlparse_path url = pre +:+ w +:+ post ->
  In (lower w) skip_paths ->
  is_valid_url urlparse_path url = false.
Proof.
  intros Hpath Hw. unfold is_valid_url.
  destruct (negb (truthy url)); [reflexivity|].
  destruct (negb (startswith "http" url)); [reflexivity|].
  destruct (rejected_by_extension url); [reflexivity|].
  assert (Hyes : existsb (fun w => contains w (lower (urlparse_path url)))
                   skip_paths = true).
  { apply skip_paths_spec. exists (lower w), (lower pre), (lower post).
    split; [exact Hw|]. rewrite Hpath, !lower_append. reflexivity. }
  rewrite Hyes. reflexivity.
Qed.

Lemma skip_word_in_any_case_refused_witness :
  is_valid_url path_of "https://x.com/My-ADMINistration?tab=1" = false.
Proof.
  apply (skip_word_in_any_case_refused path_of
           "https://x.com/My-ADMINistration?tab=1" "/My-" "ADMIN" "istration").
  - reflexivity.
  - vm_compute. auto 10.
Defined.

(* ===================================================================== *)
(** * The request of [parse_with_gemini] *)
(* ===================================================================== *)

Lemma len_build_prompt parse_description combined :
  len (build_prompt parse_description combined) =
  len parse_description + len combined + 448.
Proof.
  unfold build_prompt. rewrite !len_append.
  change (len prompt_head) with 73.
  change (len prompt_middle) with 19.
  change (len prompt_tail) with 356. lia.
Qed.

(** The content handed to the model is never longer than 100000 characters
    and the note. *)
Lemma len_website_content dom_chunks :
  len (website_content dom_chunks) <= 100037.
Proof.
  unfold website_content.
  destruct (Z.gtb_spec (len (join section_break dom_chunks)) 100000) as [Hgt|Hle];
    [|lia].
  rewrite len_append, len_slice_inside by lia.
  change (len truncation_note) with 37. lia.
Qed.

(** X17: [parse_with_gemini] hands a prompt to the model only for a
    non-empty list of chunks, a question that is not blank and a non-empty
    API key, and the prompt is then at most 100485 characters longer than the
    question, however long the chunks are. *)
Theorem request_prompt_bounded api_key dom_chunks parse_description prompt :
  request_prompt api_key dom_chunks parse_description = Some prompt ->
  dom_chunks <> [] /\
  strip parse_description <> EmptyString /\
  (exists key, api_key = Some key /\ key <> EmptyString) /\
  len prompt <= len parse_description + 100485.
Proof.
  unfold request_prompt.
  destruct dom_chunks as [|c cs]; [discriminate|]. simpl orb.
  destruct (strip parse_description) as [|a q] eqn:Hq; [discriminate|].
  simpl negb. cbv iota.
  destruct api_key as [[|k key]|]; try discriminate.
  simpl negb. cbv iota. intros [= <-].
  split; [discriminate|]. split; [discriminate|].
  split; [eexists; split; [reflexivity | discriminate]|].
  rewrite len_build_prompt.
  pose proof (len_website_content (c :: cs)). lia.
Qed.

Lemma request_prompt_bounded_witness :
  ["abc"; "def"] <> [] /\
  strip "What is it?" <> EmptyString /\
  (exists key, Some "k" = Some key /\ key <> EmptyString) /\
  len (build_prompt "What is it?" (website_content ["abc"; "def"]))
    <= len "What is it?" + 100485.
Proof.
  apply (request_prompt_bounded (Some "k") ["abc"; "def"] "What is it?").
  vm_compute. reflexivity.
Defined.

(* ===================================================================== *)
(** * Order of the crawl *)
(* ===================================================================== *)

Lemma crawl_loop_fetched_grows `{E : Externals} same_domain max_pages domain fuel :
  forall st st',
    crawl_loop same_domain max_pages domain fuel st = Some st' ->
    exists more, fetched st' = fetched st ++ more.
Proof.
  induction fuel as [|fuel IH]; intros st st'; simpl; [discriminate|].
  destruct (loop_test max_pages st) eqn:Ht.
  - intros Hrun. apply IH in Hrun as [more Hmore].
    unfold loop_test in Ht.
    destruct (queue st) as [|current q] eqn:Hq; [discriminate|].
    destruct (loop_body_outcome same_domain domain st current q Hq)
      as [[Hb _] | (_ & _ & Hb)]; rewrite Hb in Hmore; simpl in Hmore.
    + eauto.
    + rewrite <- app_assoc in Hmore. eauto.
  - intros [= <-]. exists []. rewrite app_nil_r. reflexivity.
Qed.

(** X18: with a budget of at least one page the first URL the crawl
    fetches is the start URL without its trailing slashes, whatever the start
    URL is. *)
Theorem start_url_fetched_first `{E : Externals}
    fuel start_url max_pages same_domain st :
  1 <= max_pages ->
  crawl fuel start_url max_pages same_domain = Some (Some st) ->
  exists more, fetched st = rstrip is_slash start_url :: more.
Proof.
  intros Hm. unfold crawl. destruct get_driver_ok; [|discriminate].
  set (start := rstrip is_slash start_url).
  destruct fuel as [|fuel]; [discriminate|]. cbn [crawl_loop].
  assert (Ht : loop_test max_pages (initial_state start) = true).
  { unfold loop_test, initial_state. cbn [queue visited].
    rewrite size_empty. apply Z.ltb_lt. lia. }
  rewrite Ht.
  destruct (crawl_loop _ _ _ fuel _) as [st'|] eqn:Hrun; [|discriminate].
  intros [= <-]. apply crawl_loop_fetched_grows in Hrun as [more Hmore].
  destruct (loop_body_outcome same_domain (urlparse_netloc start)
              (initial_state start) start [] eq_refl)
    as [[_ [Hin | [_ Hdom]]] | (_ & _ & Hb)].
  - exfalso. exact (not_elem_of_empty (C := gset string) start Hin).
  - congruence.
  - rewrite Hb in Hmore. simpl in Hmore. eauto.
Qed.

Lemma start_url_fetched_first_witness :
  exists more, fetched after_page_b = rstrip is_slash "http://x.com/" :: more.
Proof.
  apply (start_url_fetched_first (E := site) 5 "http://x.com/" 2 true after_page_b).
  - lia.
  - vm_compute. reflexivity.
Defined.

(** X19: the links of a page go behind the entries that the queue already
    has, in the order in which the page has them: the queue after the link
    loop is the queue before followed by the resolved and normalized links
    that pass the test of lines 207-208. *)
Theorem links_enqueued_in_order `{E : Externals}
    same_domain domain current (visited : gset string) hrefs queue :
  enqueue_links same_domain domain current visited hrefs queue =
  queue ++ List.filter (link_accepted same_domain domain visited)
             (map (fun href => normalize (urljoin current href)) hrefs).
Proof.
  unfold enqueue_links. revert queue.
  induction hrefs as [|href hrefs IH]; intros queue; simpl.
  - rewrite app_nil_r. reflexivity.
  - rewrite IH. unfold consider_link, link_accepted.
    destruct (bool_decide _); simpl; [|reflexivity].
    destruct (is_valid_url _ _); simpl; [|reflexivity].
    destruct (same_domain && _); simpl; [|reflexivity].
    rewrite <- app_assoc. reflexivity.
Qed.
